(** * Hinglish order parser (src/src/order_parser.py): model and properties

    A shallow embedding of [OrderParser]: the unit table, the alias table,
    [normalize_unit], [fuzzy_match_product], [parse_hinglish_order] and
    [generate_reply], together with the pieces of the Python runtime they
    rest on (text as code points, the character classes of the order
    pattern, a backtracking matcher for the pattern, [float] on the
    numerals the pattern captures). *)

From Stdlib Require Import String Ascii List Bool Arith NArith ZArith QArith Lia.
From Stdlib Require DecimalString.
Import ListNotations.
Local Close Scope Q_scope.
Local Open Scope list_scope.

(** ** Text

    A Python [str] is a sequence of Unicode code points. *)

Definition char := N.
Definition str := list char.

(** The source file is UTF-8; [u] reads a literal the way Python reads the
    literal of the source, so the tables below can be written as they are in
    [order_parser.py]. *)
Fixpoint utf8_decode (bs : list N) : str :=
  match bs with
  | [] => []
  | b0 :: r0 =>
    if (b0 <? 128)%N then b0 :: utf8_decode r0
    else if (b0 <? 224)%N then
      match r0 with
      | b1 :: r1 => ((b0 - 192) * 64 + (b1 - 128))%N :: utf8_decode r1
      | _ => []
      end
    else if (b0 <? 240)%N then
      match r0 with
      | b1 :: b2 :: r2 =>
        ((b0 - 224) * 4096 + (b1 - 128) * 64 + (b2 - 128))%N :: utf8_decode r2
      | _ => []
      end
    else
      match r0 with
      | b1 :: b2 :: b3 :: r3 =>
        ((b0 - 240) * 262144 + (b1 - 128) * 4096 + (b2 - 128) * 64 + (b3 - 128))%N
          :: utf8_decode r3
      | _ => []
      end
  end.

Definition u (s : string) : str :=
  utf8_decode (map N_of_ascii (list_ascii_of_string s)).

Definition str_eqb (a b : str) : bool :=
  if list_eq_dec N.eq_dec a b then true else false.

Definition in_range (lo hi c : N) : bool := ((lo <=? c) && (c <=? hi))%N.

(** [str.isspace] and the pattern's [\s] use the same set of code points. *)
Definition isspace (c : char) : bool :=
  in_range 9 13 c || in_range 28 32 c || (c =? 133)%N || (c =? 160)%N
  || (c =? 5760)%N || in_range 8192 8202 c || (c =? 8232)%N || (c =? 8233)%N
  || (c =? 8239)%N || (c =? 8287)%N || (c =? 12288)%N.

(** The code points that are digit zero of a run of ten decimal digits
    (general category Nd, Unicode 14.0 as shipped with CPython 3.11). *)
Definition decimal_zeros : list N :=
  [ 0x30; 0x660; 0x6f0; 0x7c0; 0x966; 0x9e6; 0xa66; 0xae6; 0xb66; 0xbe6;
    0xc66; 0xce6; 0xd66; 0xde6; 0xe50; 0xed0; 0xf20; 0x1040; 0x1090; 0x17e0;
    0x1810; 0x1946; 0x19d0; 0x1a80; 0x1a90; 0x1b50; 0x1bb0; 0x1c40; 0x1c50;
    0xa620; 0xa8d0; 0xa900; 0xa9d0; 0xa9f0; 0xaa50; 0xabf0; 0xff10; 0x104a0;
    0x10d30; 0x11066; 0x110f0; 0x11136; 0x111d0; 0x112f0; 0x11450; 0x114d0;
    0x11650; 0x116c0; 0x11730; 0x118e0; 0x11950; 0x11c50; 0x11d50; 0x11da0;
    0x16a60; 0x16ac0; 0x16b50; 0x1d7ce; 0x1d7d8; 0x1d7e2; 0x1d7ec; 0x1d7f6;
    0x1e140; 0x1e2f0; 0x1e950; 0x1fbf0 ]%N.

(** The decimal value of a code point, as both [\d] and [float] see it. *)
Definition todecimal (c : char) : option N :=
  match find (fun z => in_range z (z + 9) c) decimal_zeros with
  | Some z => Some (c - z)%N
  | None => None
  end.

Definition isdecimal (c : char) : bool :=
  match todecimal c with Some _ => true | None => false end.

(** The class a-zA-Z\u0900-\u097F under [re.IGNORECASE]: the 52 ASCII
    letters, the Devanagari block, and the four letters that case-fold onto
    ASCII ones (U+0130, U+0131, U+017F, U+212A).  The Devanagari digits
    U+0966 to U+096F are in this class and in [\d] as well. *)
Definition isword (c : char) : bool :=
  in_range 0x41 0x5a c || in_range 0x61 0x7a c || in_range 0x900 0x97f c
  || (c =? 0x130)%N || (c =? 0x131)%N || (c =? 0x17f)%N || (c =? 0x212a)%N.

Definition isdot (c : char) : bool := (c =? 46)%N.

(** ** A backtracking matcher

    The fragment of Python's [re] the order pattern is written in: character
    classes, concatenation, the greedy quantifiers [+], [*], [?] and
    capturing groups. *)

Inductive regex : Type :=
| Class (p : char -> bool)
| Cat (a b : regex)
| Plus (a : regex)
| Star (a : regex)
| Opt (a : regex)
| Group (n : nat) (a : regex).

(** Captures: the most recent binding of a group comes first. *)
Definition caps := list (nat * str).
Definition result := (str * caps)%type.
Definition cont := str -> caps -> option result.
Definition matcher := str -> caps -> cont -> option result.

(** What was read between position [s] and the later position [s']. *)
Definition consumed (s s' : str) : str := firstn (length s - length s') s.

(** Greedy iteration of [f]: one more round of [f] is tried before the rest
    of the pattern.  A round has to read something; [n] bounds the number of
    rounds and is the length of the text when the loop is entered, which no
    loop whose body reads something can exhaust ([star_fuel_enough]). *)
Fixpoint star (f : matcher) (n : nat) (s : str) (c : caps) (k : cont)
  : option result :=
  match n with
  | O => k s c
  | S n' =>
    match f s c (fun s' c' =>
                   if length s' <? length s then star f n' s' c' k else None) with
    | Some r => Some r
    | None => k s c
    end
  end.

Fixpoint run (r : regex) (s : str) (c : caps) (k : cont) {struct r}
  : option result :=
  match r with
  | Class p =>
    match s with
    | x :: s' => if p x then k s' c else None
    | [] => None
    end
  | Cat a b => run a s c (fun s' c' => run b s' c' k)
  | Plus a => run a s c (fun s' c' => star (run a) (length s') s' c' k)
  | Star a => star (run a) (length s) s c k
  | Opt a =>
    match run a s c k with
    | Some r => Some r
    | None => k s c
    end
  | Group n a => run a s c (fun s' c' => k s' ((n, consumed s s') :: c'))
  end.

(** [m.group(n)], with the empty string for a group that took no part, as
    [re.findall] reports it. *)
Definition group (n : nat) (c : caps) : str :=
  match find (fun e => Nat.eqb (fst e) n) c with
  | Some e => snd e
  | None => []
  end.

(** [pattern.match] at the start of [s]: the text left after the match and
    the captures. *)
Definition match_here (r : regex) (s : str) : option result :=
  run r s [] (fun s' c => Some (s', c)).

(** [re.findall] for a pattern with three groups that accepts no empty text
    (the order pattern starts with a digit): non-overlapping matches,
    leftmost first; after a match the scan resumes where the match ended
    ([skip] counts the code points still to be passed over). *)
Fixpoint findall_from (r : regex) (skip : nat) (s : str)
  : list (str * str * str) :=
  match s with
  | [] => []
  | _ :: s' =>
    match skip with
    | S n => findall_from r n s'
    | O =>
      match match_here r s with
      | Some (rest, c) =>
        (group 1 c, group 2 c, group 3 c)
          :: findall_from r (length s - length rest - 1) s'
      | None => findall_from r 0 s'
      end
    end
  end.

Definition findall (r : regex) (s : str) : list (str * str * str) :=
  findall_from r 0 s.

(** The order pattern of [parse_hinglish_order], piece by piece, with W for
    the class a-zA-Z\u0900-\u097F:
    group 1 is \d+(?:\.\d+)? ; then \s* ; then group 2, optional, is W+ ;
    then \s+ ; then group 3 is W+ followed by any number of (?:\s+W+). *)
Definition quantity_re : regex :=
  Cat (Plus (Class isdecimal)) (Opt (Cat (Class isdot) (Plus (Class isdecimal)))).
Definition unit_re : regex := Plus (Class isword).
Definition product_re : regex :=
  Cat (Plus (Class isword))
      (Star (Cat (Plus (Class isspace)) (Plus (Class isword)))).

Definition pattern : regex :=
  Cat (Group 1 quantity_re)
      (Cat (Star (Class isspace))
           (Cat (Opt (Group 2 unit_re))
                (Cat (Plus (Class isspace))
                     (Group 3 product_re)))).

(** ** Runtime functions the parser calls *)

(** [float(s)] for an unsigned decimal numeral [s]: digits, and possibly a
    dot followed by digits.  The value is kept exact (Python rounds it to the
    nearest double).  Python's [float] accepts more texts (signs, exponents,
    surrounding blanks); for those this model answers [None], so it fails
    at least as often as Python does. *)
Fixpoint span_digits (s : str) : list N * str :=
  match s with
  | [] => ([], [])
  | x :: s' =>
    match todecimal x with
    | Some d => let (ds, r) := span_digits s' in (d :: ds, r)
    | None => ([], s)
    end
  end.

Definition digits_value (ds : list N) : N :=
  fold_left (fun a d => (10 * a + d)%N) ds 0%N.

Definition py_float (s : str) : option Q :=
  let (ip, r) := span_digits s in
  match ip, r with
  | [], _ => None
  | _ :: _, [] => Some (Z.of_N (digits_value ip) # 1)%Q
  | _ :: _, x :: r' =>
    if isdot x then
      let (fp, r'') := span_digits r' in
      match r'' with
      | [] => Some (Z.of_N (digits_value (ip ++ fp)) # Pos.of_nat (10 ^ length fp))%Q
      | _ :: _ => None
      end
    else None
  end.

(** [str.strip()] *)
Fixpoint lstrip (s : str) : str :=
  match s with
  | x :: s' => if isspace x then lstrip s' else s
  | [] => []
  end.

Definition rstrip (s : str) : str := rev (lstrip (rev s)).
Definition strip (s : str) : str := rstrip (lstrip s).

(** [sep.join(parts)] *)
Fixpoint join (sep : str) (parts : list str) : str :=
  match parts with
  | [] => []
  | [p] => p
  | p :: ps => p ++ sep ++ join sep ps
  end.

(** ** OrderParser *)

(** [UNIT_MAPPINGS], in the order of the dict literal. *)
Definition UNIT_MAPPINGS : list (str * str) :=
  [ (u "kg", u "kg"); (u "kilo", u "kg"); (u "किलो", u "kg"); (u "keelo", u "kg");
    (u "gm", u "gm"); (u "gram", u "gm"); (u "ग्राम", u "gm");
    (u "litre", u "litre"); (u "liter", u "litre"); (u "लीटर", u "litre");
    (u "l", u "litre");
    (u "ml", u "ml"); (u "millilitre", u "ml");
    (u "piece", u "piece"); (u "pcs", u "piece"); (u "pc", u "piece");
    (u "पीस", u "piece");
    (u "packet", u "packet"); (u "pkt", u "packet"); (u "पैकेट", u "packet");
    (u "bottle", u "bottle"); (u "बोतल", u "bottle");
    (u "box", u "box"); (u "बॉक्स", u "box");
    (u "dozen", u "dozen"); (u "दर्जन", u "dozen") ].

(** [PRODUCT_ALIASES]; a dict is iterated in insertion order. *)
Definition PRODUCT_ALIASES : list (str * list str) :=
  [ (u "atta", [u "aata"; u "आटा"; u "flour"]);
    (u "milk", [u "doodh"; u "दूध"]);
    (u "rice", [u "chawal"; u "चावल"]);
    (u "sugar", [u "cheeni"; u "चीनी"]);
    (u "oil", [u "tel"; u "तेल"]);
    (u "dal", [u "daal"; u "दाल"; u "lentils"]);
    (u "salt", [u "namak"; u "नमक"]);
    (u "tea", [u "chai"; u "चाय"]);
    (u "biscuit", [u "biskut"; u "बिस्कुट"]) ].

(** [self.known_products = list(self.PRODUCT_ALIASES.keys())] *)
Definition known_products : list str := map fst PRODUCT_ALIASES.

(** [d.get(k)] *)
Definition dict_get {V : Type} (d : list (str * V)) (k : str) : option V :=
  match find (fun e => str_eqb (fst e) k) d with
  | Some e => Some (snd e)
  | None => None
  end.

(** An item of the order: the dict built in the loop of
    [parse_hinglish_order]. *)
Record ParsedItem : Type := mkItem {
  name : str;
  quantity : Q;
  unit : str;
  item_original_text : str
}.

(** The dict [parse_hinglish_order] returns. *)
Record ParsedOrder : Type := mkOrder {
  items : list ParsedItem;
  original_text : str;
  total_items : nat
}.

Definition nat_str (n : nat) : str :=
  u (DecimalString.NilZero.string_of_uint (Nat.to_uint n)).

Section OrderParser.

(** Library functions the repository calls and does not define:
    [str.lower], [str.title], the text an f-string gives a float, and
    [rapidfuzz.fuzz.ratio]. *)
Variable lower : str -> str.
Variable title : str -> str.
Variable float_str : Q -> str.
Variable ratio : str -> str -> Q.

(** [score >= threshold] *)
Definition reaches (score : Q) (threshold : Z) : bool :=
  Qle_bool (inject_Z threshold) score.

Definition normalize_unit (unit_text : str) : str :=
  let unit_lower := strip (lower unit_text) in
  match dict_get UNIT_MAPPINGS unit_lower with
  | Some v => v
  | None => unit_lower
  end.

(** The two nested [for] loops of the alias phase: the first alias, in
    iteration order, whose score reaches the threshold. *)
Fixpoint first_alias (product_lower : str) (threshold : Z) (aliases : list str)
  : bool :=
  match aliases with
  | [] => false
  | alias :: rest =>
    if reaches (ratio product_lower alias) threshold then true
    else first_alias product_lower threshold rest
  end.

Fixpoint alias_phase (product_lower : str) (threshold : Z)
         (table : list (str * list str)) : option str :=
  match table with
  | [] => None
  | (standard_name, aliases) :: rest =>
    if first_alias product_lower threshold aliases then Some standard_name
    else alias_phase product_lower threshold rest
  end.

(** [process.extractOne(query, choices, scorer=fuzz.ratio, score_cutoff=t)]:
    the best-scoring choice among those that reach the cutoff, the earliest
    one among equals; the texts are scored as they are (no processor). *)
Definition extractOne (query : str) (choices : list str) (score_cutoff : Z)
  : option (str * Q) :=
  fold_left
    (fun best choice =>
       let score := ratio query choice in
       if reaches score score_cutoff
          && match best with
             | None => true
             | Some (_, b) => negb (Qle_bool score b)
             end
       then Some (choice, score) else best)
    choices None.

Definition fuzzy_match_product (product_text : str) (threshold : Z) : str :=
  let product_lower := strip (lower product_text) in
  match alias_phase product_lower threshold PRODUCT_ALIASES with
  | Some standard_name => standard_name
  | None =>
    match extractOne product_lower known_products threshold with
    | Some (choice, _) => choice
    | None => lower product_text
    end
  end.

Definition unit_allowlist : list str :=
  [u "kg"; u "litre"; u "piece"; u "packet"].

Definition is_empty (s : str) : bool :=
  match s with [] => true | _ => false end.

(** The body of the [for match in matches] loop; [None] is the
    [continue] of the [except ValueError] branch. *)
Definition parse_match (mt : str * str * str) : option ParsedItem :=
  let '(quantity_str, unit_str, product_str) := mt in
  match py_float quantity_str with
  | None => None
  | Some quantity =>
    let '(unit, product_str) :=
      if is_empty unit_str || existsb (str_eqb (lower unit_str)) unit_allowlist
      then ((if is_empty unit_str then u "piece" else normalize_unit unit_str),
            product_str)
      else (u "piece", unit_str ++ u " " ++ product_str) in
    let product := fuzzy_match_product product_str 70 in
    Some (mkItem product quantity unit
                 (strip (quantity_str ++ u " " ++ unit_str ++ u " " ++ product_str)))
  end.

Fixpoint parse_matches (matches : list (str * str * str)) : list ParsedItem :=
  match matches with
  | [] => []
  | mt :: rest =>
    match parse_match mt with
    | Some item => item :: parse_matches rest
    | None => parse_matches rest
    end
  end.

Definition parse_hinglish_order (order_text : str) : ParsedOrder :=
  let matches := findall pattern order_text in
  let items := parse_matches matches in
  mkOrder items order_text (length items).

(** The numbered lines of the reply, [enumerate(items, 1)]. *)
Fixpoint summary_items (idx : nat) (items : list ParsedItem) : list str :=
  match items with
  | [] => []
  | item :: rest =>
    (nat_str idx ++ u ". " ++ float_str (quantity item) ++ u " " ++ unit item
       ++ u " " ++ title (name item))
      :: summary_items (S idx) rest
  end.

(** The reply of the first branch of [generate_reply]. *)
Definition sorry_reply (customer_name : str) : str :=
  u "Sorry " ++ customer_name
    ++ u ", I couldn't understand your order. Please try again.".

(** [parsed_order] is [None] for a falsy argument ([None] or an empty
    dict); an order with an empty list of items takes the same branch. *)
Definition generate_reply (parsed_order : option ParsedOrder)
           (customer_name : str) : str :=
  match parsed_order with
  | None => sorry_reply customer_name
  | Some order =>
    match items order with
    | [] => sorry_reply customer_name
    | _ :: _ =>
      join [10%N]
           ([u "Thank you " ++ customer_name ++ u "! Your order:"]
              ++ summary_items 1 (items order)
              ++ [ [10%N] ++ u "Your order is confirmed! ✅";
                   u "We'll prepare it right away." ])
    end
  end.

End OrderParser.

(** ** The library functions, concretely *)

(** [str.lower()], code point by code point, for text of Basic Latin,
    Latin-1 and Devanagari code points and of the letters the order pattern
    admits; code points outside these are left as they are. *)
Definition lower_cp (c : char) : str :=
  if in_range 0x41 0x5a c then [(c + 32)%N]
  else if in_range 0xc0 0xde c && negb (c =? 0xd7)%N then [(c + 32)%N]
  else if (c =? 0x130)%N then [0x69; 0x307]%N
  else if (c =? 0x212a)%N then [0x6b]%N
  else [c].

Definition py_lower (s : str) : str := flat_map lower_cp s.

(** The number of matching characters in an optimal alignment of [a] and
    [b] (their longest common subsequence). *)
Fixpoint lcs (a b : str) : nat :=
  match a with
  | [] => O
  | x :: a' =>
    (fix scan (b : str) : nat :=
       match b with
       | [] => O
       | y :: b' =>
         if (x =? y)%N then S (lcs a' b')
         else Nat.max (lcs a' b) (scan b')
       end) b
  end.

(** Modelled from the spec: [rapidfuzz.fuzz.ratio], a third-party scorer
    that is not part of the repository.  Section 4.3: twice the number of
    matching characters in an optimal alignment, divided by the sum of both
    string lengths, times 100; 100 for identical strings (two empty strings
    included). *)
Definition fuzz_ratio (a b : str) : Q :=
  match (length a + length b)%nat with
  | O => 100%Q
  | S n => (Z.of_nat (200 * lcs a b) # Pos.of_succ_nat n)%Q
  end.

(** The parser as the application runs it. *)
Definition match_product (raw : str) (threshold : Z) : str :=
  fuzzy_match_product py_lower fuzz_ratio raw threshold.

Definition parse (message : str) : ParsedOrder :=
  parse_hinglish_order py_lower fuzz_ratio message.

(** ** Vocabulary of the properties *)

(** The texts a pattern accepts (groups do not change them). *)
Inductive lang : regex -> str -> Prop :=
| lang_class p x : p x = true -> lang (Class p) [x]
| lang_cat a b s t : lang a s -> lang b t -> lang (Cat a b) (s ++ t)
| lang_plus a s t : lang a s -> lang (Star a) t -> lang (Plus a) (s ++ t)
| lang_star_nil a : lang (Star a) []
| lang_star_cons a s t : lang a s -> lang (Star a) t -> lang (Star a) (s ++ t)
| lang_opt_none a : lang (Opt a) []
| lang_opt_some a s : lang a s -> lang (Opt a) s
| lang_group n a s : lang a s -> lang (Group n a) s.

(** [t] occurs in [s] as a contiguous piece. *)
Definition substr (t s : str) : Prop := exists a b, s = a ++ t ++ b.

(** The groups a successful match is certain to have bound. *)
Fixpoint bound (r : regex) : list nat :=
  match r with
  | Class _ => []
  | Cat a b => bound a ++ bound b
  | Plus a => bound a
  | Star _ => []
  | Opt _ => []
  | Group n a => n :: bound a
  end.

(** Every capture is a piece of the message [msg] and satisfies [P]. *)
Definition caps_ok (msg : str) (P : nat -> str -> Prop) (c : caps) : Prop :=
  forall n t, In (n, t) c -> P n t /\ substr t msg.

(** [s] is the rest of the message at some position. *)
Definition at_pos (msg s : str) : Prop := exists front, msg = front ++ s.

(** [P n] holds of all that the body of group [n] accepts. *)
Fixpoint groups_ok (P : nat -> str -> Prop) (r : regex) : Prop :=
  match r with
  | Class _ => True
  | Cat a b => groups_ok P a /\ groups_ok P b
  | Plus a => groups_ok P a
  | Star a => groups_ok P a
  | Opt a => groups_ok P a
  | Group n a => groups_ok P a /\ (forall t, lang a t -> P n t)
  end.

(** What a matcher for [r] owes: when it succeeds from [s], it has read a
    text [r] accepts, bound the groups [r] is certain to bind to pieces of
    the message, and handed the rest to its continuation. *)
Definition sound (msg : str) (P : nat -> str -> Prop) (f : matcher) (r : regex)
  : Prop :=
  forall s c k res,
    at_pos msg s -> caps_ok msg P c -> f s c k = Some res ->
    exists pre s' l,
      s = pre ++ s' /\ lang r pre /\ caps_ok msg P (l ++ c)
      /\ (forall n, In n (bound r) -> exists t, In (n, t) l)
      /\ k s' (l ++ c) = Some res.

(** What each of the three groups of the order pattern accepts. *)
Definition group_lang (n : nat) (t : str) : Prop :=
  match n with
  | 1 => lang quantity_re t
  | 2 => lang unit_re t
  | 3 => lang product_re t
  | _ => True
  end.

(** The alias table as the two nested loops walk it: pairs of a canonical
    name and one of its aliases, entry by entry, alias by alias. *)
Definition alias_pairs (table : list (str * list str)) : list (str * str) :=
  flat_map (fun e => map (pair (fst e)) (snd e)) table.

(** No alias and no catalog name scores at or above the threshold. *)
Definition no_score_reaches (ratio : str -> str -> Q) (product_lower : str)
           (threshold : Z) : bool :=
  forallb (fun cand => negb (reaches (ratio product_lower cand) threshold))
          (map snd (alias_pairs PRODUCT_ALIASES) ++ known_products).

(** Decidable versions of "starts with" and "occurs in". *)
Fixpoint prefixb (t s : str) : bool :=
  match t, s with
  | [], _ => true
  | x :: t', y :: s' => (x =? y)%N && prefixb t' s'
  | _ :: _, [] => false
  end.

Fixpoint substrb (t s : str) : bool :=
  prefixb t s
  || match s with
     | [] => false
     | _ :: s' => substrb t s'
     end.

(** A matcher answers only through its continuation. *)
Definition via_cont (f : matcher) : Prop :=
  forall s c, f s c (fun _ _ => None) = None.

(** A matcher calls its continuation only at texts that are not longer than
    the one it starts from. *)
Definition calls_le (f : matcher) : Prop :=
  forall s c (k1 k2 : cont),
    (forall s' c', length s' <= length s -> k1 s' c' = k2 s' c') ->
    f s c k1 = f s c k2.

(** A matcher calls its continuation only at strictly shorter texts. *)
Definition calls_lt (f : matcher) : Prop :=
  forall s c (k1 k2 : cont),
    (forall s' c', length s' < length s -> k1 s' c' = k2 s' c') ->
    f s c k1 = f s c k2.

(** The pattern accepts no empty text. *)
Fixpoint consuming (r : regex) : bool :=
  match r with
  | Class _ => true
  | Cat a b => consuming a || consuming b
  | Plus a => consuming a
  | Star _ => false
  | Opt _ => false
  | Group _ a => consuming a
  end.

(** The bodies of the loops of a pattern all read something. *)
Fixpoint loops_consume (r : regex) : bool :=
  match r with
  | Class _ => true
  | Cat a b => loops_consume a && loops_consume b
  | Plus a => consuming a && loops_consume a
  | Star a => consuming a && loops_consume a
  | Opt a => loops_consume a
  | Group _ a => loops_consume a
  end.

(** ** Vocabulary of the further properties *)

(** One round of the loop of [process.extractOne]: the choice replaces the
    best so far when it reaches the cutoff and scores strictly higher. *)
Definition extract_step (ratio : str -> str -> Q) (query : str)
           (score_cutoff : Z) (best : option (str * Q)) (choice : str)
  : option (str * Q) :=
  let score := ratio query choice in
  if reaches score score_cutoff
     && match best with
        | None => true
        | Some (_, b) => negb (Qle_bool score b)
        end
  then Some (choice, score) else best.

(** [best] is what the loop of [process.extractOne] holds after the choices
    [seen]: nothing when none reached the cutoff, else a choice that reached
    it, scores strictly above all before it and at least as high as all
    after it. *)
Definition best_of (ratio : str -> str -> Q) (query : str) (score_cutoff : Z)
           (seen : list str) (best : option (str * Q)) : Prop :=
  match best with
  | None => forall x, In x seen -> reaches (ratio query x) score_cutoff = false
  | Some (c, sc) =>
    sc = ratio query c /\ reaches sc score_cutoff = true
    /\ exists pre post,
        seen = pre ++ c :: post
        /\ (forall x, In x pre -> (ratio query x < sc)%Q)
        /\ (forall x, In x post -> (ratio query x <= sc)%Q)
  end.

(** The code points below [n], for checks by enumeration. *)
Definition code_points_upto (n : N) : list N :=
  map N.of_nat (seq 0 (N.to_nat n)).

(** The lowercase form of [c] is not empty and neither begins nor ends with
    a blank. *)
Definition lower_ends_ok (c : char) : bool :=
  match lower_cp c with
  | [] => false
  | h :: _ => negb (isspace h) && negb (isspace (last (lower_cp c) h))
  end.

(** Every code point of the lowercase form of [c] is its own lowercase
    form. *)
Definition lower_settled (c : char) : bool :=
  forallb (fun d => str_eqb (lower_cp d) [d]) (lower_cp c).

(** ** InventoryDB (src/src/database.py)

    The two tables as lists of rows in rowid order, each with the counter
    that AUTOINCREMENT keeps for it.  A REAL value is kept as the rational
    number the float stands for; the sum of two floats, which Python rounds
    to a float again, is taken from outside as [fadd].  The timestamp
    columns, which come from SQLite's clock, are left out; so are the
    functions that filter or order by what this leaves out or by LIKE
    ([search_items], [get_stock_history]). *)

Module Db.

Record Row : Type := mkRow {
  id : Z;
  name : str;
  brand : str;
  unit : str;
  stock : Q;
  price : Q;
  gst_rate : Q;
  category : option str
}.

Record History : Type := mkHistory {
  history_id : Z;
  item_id : Z;
  change_amount : Q;
  previous_stock : Q;
  new_stock : Q;
  reason : str
}.

Record t : Type := mkDb {
  items : list Row;
  items_seq : Z;
  stock_history : list History;
  stock_history_seq : Z
}.

(** [init_db] on a fresh file: both tables empty. *)
Definition init_db : t := mkDb [] 0 [] 0.

(** SQLite's built-in [LOWER]: ASCII letters only. *)
Definition sql_lower (s : str) : str :=
  map (fun c => if in_range 0x41 0x5a c then (c + 32)%N else c) s.

(** [SELECT * FROM items WHERE LOWER(name) = LOWER(?)], [fetchone]. *)
Definition get_item_by_name (db : t) (item_name : str) : option Row :=
  find (fun r => str_eqb (sql_lower (name r)) (sql_lower item_name)) (items db).

(** [SELECT * FROM items WHERE id = ?], [fetchone]. *)
Definition get_item_by_id (db : t) (i : Z) : option Row :=
  find (fun r => Z.eqb (id r) i) (items db).

(** [add_item]: [None] is the [ValueError] raised when the UNIQUE constraint
    on the name rejects the row; otherwise the new id and the new state.
    [lower] is Python's [str.lower]. *)
Definition add_item (lower : str -> str) (db : t) (item_name brand unit : str)
           (stock price gst_rate : Q) (category : option str)
  : option (Z * t) :=
  let stored := lower item_name in
  if existsb (fun r => str_eqb (name r) stored) (items db) then None
  else
    let item_id := (items_seq db + 1)%Z in
    Some (item_id,
          mkDb (items db
                  ++ [mkRow item_id stored brand unit stock price gst_rate category])
               item_id (stock_history db) (stock_history_seq db)).

(** [UPDATE items SET stock = ? WHERE id = ?] *)
Definition set_stock (i : Z) (new : Q) (r : Row) : Row :=
  if Z.eqb (id r) i
  then mkRow (id r) (name r) (brand r) (unit r) new (price r) (gst_rate r)
             (category r)
  else r.

(** [update_stock]: the returned flag and the new state.  [fadd] is the
    addition of Python's floats. *)
Definition update_stock (fadd : Q -> Q -> Q) (db : t) (item_name : str)
           (change : Q) (reason : str) : bool * t :=
  match get_item_by_name db item_name with
  | None => (false, db)
  | Some item =>
    let new_stock := fadd (stock item) change in
    if negb (Qle_bool 0 new_stock) then (false, db)
    else
      let h := (stock_history_seq db + 1)%Z in
      (true,
       mkDb (map (set_stock (id item) new_stock) (items db))
            (items_seq db)
            (stock_history db
               ++ [mkHistory h (id item) change (stock item) new_stock reason])
            h)
  end.

(** [delete_item]: the row goes, its history stays (foreign keys are not
    enforced unless switched on). *)
Definition delete_item (db : t) (item_name : str) : bool * t :=
  match get_item_by_name db item_name with
  | None => (false, db)
  | Some item =>
    (true,
     mkDb (filter (fun r => negb (Z.eqb (id r) (id item))) (items db))
          (items_seq db) (stock_history db) (stock_history_seq db))
  end.

(** Text order under the BINARY collation. *)
Fixpoint str_leb (a b : str) : bool :=
  match a, b with
  | [], _ => true
  | _ :: _, [] => false
  | x :: a', y :: b' =>
    if (x <? y)%N then true
    else if (y <? x)%N then false
    else str_leb a' b'
  end.

Fixpoint insert_by_name (r : Row) (rows : list Row) : list Row :=
  match rows with
  | [] => [r]
  | r' :: rest =>
    if str_leb (name r) (name r') then r :: rows
    else r' :: insert_by_name r rest
  end.

(** [ORDER BY name] *)
Fixpoint order_by_name (rows : list Row) : list Row :=
  match rows with
  | [] => []
  | r :: rest => insert_by_name r (order_by_name rest)
  end.

(** The WHERE clause [list_items] builds: the category test is added for a
    category that is given and not empty, the stock test on request. *)
Definition list_filter (category : option str) (in_stock_only : bool) (r : Row)
  : bool :=
  match category with
  | Some (c :: cs) =>
    match Db.category r with
    | Some rc => str_eqb rc (c :: cs)
    | None => false
    end
  | _ => true
  end
  && (if in_stock_only then negb (Qle_bool (stock r) 0) else true).

Definition list_items (db : t) (category : option str) (in_stock_only : bool)
  : list Row :=
  order_by_name (filter (list_filter category in_stock_only) (items db)).

(** A well-formed state: ids and names are unique, no id is above the
    counter, and the stored names are fixed by [LOWER] (as they are when
    they come from [add_item], which stores [name.lower()]). *)
Definition wf (db : t) : Prop :=
  NoDup (map id (items db))
  /\ NoDup (map name (items db))
  /\ Forall (fun r => (id r <= items_seq db)%Z) (items db)
  /\ Forall (fun r => sql_lower (name r) = name r) (items db).

End Db.

(** ** The WhatsApp webhook (src/app.py) *)

Module App.

Record WhatsAppMessage : Type := mkMessage {
  message : str;
  customer_name : str;
  customer_phone : option str;
  timestamp : option str
}.

Record OrderResponse : Type := mkResponse {
  success : bool;
  reply_text : str;
  order_id : option str;
  invoice_path : option str;
  error : option str
}.

(** The availability loop: the items the inventory can serve, and the names
    of those it cannot. *)
Fixpoint check_stock (db : Db.t) (order_items : list ParsedItem)
  : list ParsedItem * list str :=
  match order_items with
  | [] => ([], [])
  | item :: rest =>
    let (available_items, unavailable_items) := check_stock db rest in
    match Db.get_item_by_name db (name item) with
    | Some db_item =>
      if Qle_bool (quantity item) (Db.stock db_item)
      then (item :: available_items, unavailable_items)
      else (available_items, name item :: unavailable_items)
    | None => (available_items, name item :: unavailable_items)
    end
  end.

(** The loop that takes the quantities out of the stock; what
    [update_stock] returns is not looked at. *)
Fixpoint deduct (fadd : Q -> Q -> Q) (db : Db.t)
         (available_items : list ParsedItem) : Db.t :=
  match available_items with
  | [] => db
  | item :: rest =>
    deduct fadd
           (snd (Db.update_stock fadd db (name item) (- quantity item)%Q
                                 (u "order")))
           rest
  end.

Section Webhook.

(** What the handler takes from outside the repository's own code: the
    addition of floats, [str.lower], the scorer, the text of a float; whether
    the three
    components were built at import time; the clock, as the text
    [strftime('%Y%m%d%H%M%S')] gives; and [create_invoice] as far as the
    handler sees it, [None] when it returns and [Some e] when it raises an
    exception whose text is [e]. *)
Variable fadd : Q -> Q -> Q.
Variable lower : str -> str.
Variable ratio : str -> str -> Q.
Variable title : str -> str.
Variable float_str : Q -> str.
Variable components_ready : bool.
Variable now_stamp : str.
Variable create_invoice : ParsedOrder -> str -> option str -> str -> option str.

Definition item_text (i : ParsedItem) : str :=
  float_str (quantity i) ++ u " " ++ unit i ++ u " " ++ name i.

Definition process_whatsapp_order (msg : WhatsAppMessage) (db : Db.t)
  : OrderResponse * Db.t :=
  if negb components_ready then
    (mkResponse false (u "System initialization in progress. Please try again.")
                None None (Some (u "Core components not initialized")),
     db)
  else
    let parsed_order := parse_hinglish_order lower ratio (message msg) in
    match items parsed_order with
    | [] =>
      (mkResponse false
                  (u "Sorry, I couldn't understand the order. Please specify items and quantities."
                     ++ [10%N; 10%N] ++ u "Example: '2 kg atta, 1 litre milk'")
                  None None (Some (u "Failed to parse order")),
       db)
    | _ :: _ =>
      let (available_items, unavailable_items) :=
        check_stock db (items parsed_order) in
      match unavailable_items with
      | _ :: _ =>
        (mkResponse false
                    (u "Sorry " ++ customer_name msg
                       ++ u ", these items are out of stock: "
                       ++ join (u ", ") unavailable_items ++ [10%N; 10%N]
                       ++ match available_items with
                          | _ :: _ =>
                            u "Available items: "
                              ++ join (u ", ") (map item_text available_items)
                          | [] => u "Please try ordering other items."
                          end)
                    None None (Some (u "Some items unavailable")),
         db)
      | [] =>
        let order_id := u "ORD" ++ now_stamp in
        let invoice_path := u "invoices/" ++ order_id ++ u ".pdf" in
        match create_invoice parsed_order (customer_name msg)
                             (customer_phone msg) invoice_path with
        | Some e =>
          (mkResponse false
                      (u "Sorry " ++ customer_name msg
                         ++ u ", there was an error processing your order. Please try again.")
                      None None (Some e),
           db)
        | None =>
          let db' := deduct fadd db available_items in
          (mkResponse true
                      (generate_reply title float_str (Some parsed_order)
                                      (customer_name msg))
                      (Some order_id) (Some invoice_path) None,
           db')
        end
      end
    end.

End Webhook.

End App.

(** The sample inventory of [database.py] and a webhook over it, for
    trying the handler on concrete messages; the sums are exact, as those of
    floats are on whole numbers of this size. *)
Definition sample_db : Db.t :=
  Db.mkDb
    [ Db.mkRow 1 (u "atta") (u "Aashirvaad") (u "kg") 50 45 5 (Some (u "groceries"));
      Db.mkRow 2 (u "milk") (u "Amul") (u "litre") 30 60 0 (Some (u "dairy"));
      Db.mkRow 3 (u "rice") (u "India Gate") (u "kg") 100 80 5
               (Some (u "groceries"));
      Db.mkRow 4 (u "sugar") (u "Madhur") (u "kg") 40 42 5 (Some (u "groceries")) ]
    4 [] 0.

Definition sample_webhook (text : str) (db : Db.t) : App.OrderResponse * Db.t :=
  App.process_whatsapp_order
    Qplus py_lower fuzz_ratio (fun s => s) (fun _ => []) true
    (u "20240101120000") (fun _ _ _ _ => None)
    (App.mkMessage text (u "Rajesh") None None) db.

(** The test of the availability loop: the inventory has a row for the
    item's name and its stock is at least the quantity asked for. *)
Definition in_stock (db : Db.t) (item : ParsedItem) : bool :=
  match Db.get_item_by_name db (name item) with
  | Some db_item => Qle_bool (quantity item) (Db.stock db_item)
  | None => false
  end.

(** ** The invoice table (src/src/invoice_generator.py)

    The loop of [create_invoice] over the items of the order: for each item
    the four values it draws (before they are formatted) and the running
    total.  An item is a dict; a key may be missing.  The product and the
    sum of Python's numbers, which round, are taken from outside as [fmul]
    and [fadd]. *)

Module Invoice.

Record Item : Type := mkItem {
  name : option str;
  quantity : option Q;
  unit : option str;
  price : option Q
}.

Record Line : Type := mkLine {
  label : str;
  qty : Q;
  rate : Q;
  amount : Q
}.

(** [d.get(key, default)] *)
Definition get {A} (v : option A) (default : A) : A :=
  match v with
  | Some x => x
  | None => default
  end.

Section Arithmetic.

Variable fmul : Q -> Q -> Q.
Variable fadd : Q -> Q -> Q.

Definition line (item : Item) : Line :=
  let item_name := get (name item) (u "Item") in
  let qty := get (quantity item) 0%Q in
  let rate := get (price item) 50%Q in
  let amount := fmul qty rate in
  mkLine (item_name ++ u " (" ++ get (unit item) (u "unit") ++ u ")")
         qty rate amount.

Definition lines (order_items : list Item) : list Line := map line order_items.

Definition total (order_items : list Item) : Q :=
  fold_left (fun t item => fadd t (amount (line item))) order_items 0%Q.

End Arithmetic.

End Invoice.

(** The dict the parser builds for an item, as [create_invoice] receives it
    from the webhook: it has no price. *)
Definition invoice_item (i : ParsedItem) : Invoice.Item :=
  Invoice.mkItem (Some (name i)) (Some (quantity i)) (Some (unit i)) None.

(** ** The ledger text (src/src/ocr_engine.py) *)

(** [s.split(sep)] for a separator of one code point: the pieces between
    the separators, empty ones included. *)
Fixpoint split_on (sep : char) (s : str) : list str :=
  match s with
  | [] => [[]]
  | c :: s' =>
    if (c =? sep)%N then [] :: split_on sep s'
    else
      match split_on sep s' with
      | p :: ps => (c :: p) :: ps
      | [] => [[c]]
      end
  end.

(** [s.split()]: the runs of code points that are not blanks. *)
Fixpoint split_ws (s : str) : list str :=
  match s with
  | [] => []
  | c :: s' =>
    if isspace c then split_ws s'
    else
      match s' with
      | [] => [[c]]
      | d :: _ =>
        if isspace d then [c] :: split_ws s'
        else
          match split_ws s' with
          | t :: ts => (c :: t) :: ts
          | [] => [[c]]
          end
      end
  end.

Module Ocr.

Section Ledger.

(** [float] on any text, with whatever the values of Python's floats are,
    and [str.lower]. *)
Variable F : Type.
Variable float : str -> option F.
Variable lower : str -> str.

Record Item : Type := mkItem {
  name : str;
  quantity : F;
  unit : str
}.

(** The body of the loop over the lines; [None] for a line that adds
    nothing. *)
Definition parse_line (line : str) : option Item :=
  if is_empty (strip line) then None
  else
    match split_on 45%N line with
    | p0 :: p1 :: _ =>
      let item_name := strip p0 in
      match split_ws (strip p1) with
      | q :: un :: _ =>
        match float q with
        | Some v => Some (mkItem (lower item_name) v un)
        | None => None
        end
      | _ => None
      end
    | _ => None
    end.

Fixpoint parse_lines (lines : list str) : list Item :=
  match lines with
  | [] => []
  | line :: rest =>
    match parse_line line with
    | Some item => item :: parse_lines rest
    | None => parse_lines rest
    end
  end.

(** [_parse_ledger_text] *)
Definition parse_ledger_text (text : str) : list Item :=
  parse_lines (split_on 10%N (strip text)).

End Ledger.

End Ocr.

(** Splits a conjunction into its parts, leaving definitions folded. *)
Ltac splits := repeat match goal with |- _ /\ _ => split end.

(** ** The matcher reads what the pattern accepts *)

Section RunSound.

Variable msg : str.
Variable P : nat -> str -> Prop.

Lemma at_pos_app pre s' : at_pos msg (pre ++ s') -> at_pos msg s'.
Proof.
  intros [front H]. exists (front ++ pre). now rewrite <- app_assoc.
Qed.

Lemma sound_nil (r : regex) s c (k : cont) res :
  lang r [] -> bound r = [] -> caps_ok msg P c -> k s c = Some res ->
  exists pre s' l,
    s = pre ++ s' /\ lang r pre /\ caps_ok msg P (l ++ c)
    /\ (forall n, In n (bound r) -> exists t, In (n, t) l)
    /\ k s' (l ++ c) = Some res.
Proof.
  intros Hl Hb Hc Hk. exists [], s, []. rewrite Hb. simpl.
  splits; auto. intros n [].
Qed.

Lemma star_sound f a :
  sound msg P f a -> forall n, sound msg P (star f n) (Star a).
Proof.
  intros Hf n. induction n as [|n IH]; intros s c k res Hpos Hc H; simpl in H.
  - apply sound_nil; auto. constructor.
  - destruct (f s c _) as [r|] eqn:E.
    + inversion H; subst r; clear H.
      apply Hf in E; auto.
      destruct E as (pre & s1 & l1 & Hs & Hl & Hc1 & _ & Hk).
      destruct (length s1 <? length s); [|discriminate].
      subst s. apply IH in Hk; auto; [|eapply at_pos_app; eauto].
      destruct Hk as (pre2 & s2 & l2 & Hs2 & Hl2 & Hc2 & _ & Hk2).
      subst s1. exists (pre ++ pre2), s2, (l2 ++ l1).
      rewrite <- !app_assoc. splits; auto.
      * now constructor.
      * intros m [].
    + apply sound_nil; auto. constructor.
Qed.

Lemma consumed_app (pre s' : str) : consumed (pre ++ s') s' = pre.
Proof.
  unfold consumed. rewrite length_app.
  replace (length pre + length s' - length s') with (length pre + 0) by lia.
  rewrite firstn_app_2. simpl. now rewrite app_nil_r.
Qed.

Lemma run_sound r : groups_ok P r -> sound msg P (run r) r.
Proof.
  induction r as [p|a IHa b IHb|a IHa|a IHa|a IHa|n a IHa];
    simpl; intros G s c k res Hpos Hc H.
  - destruct s as [|x s']; [discriminate|].
    destruct (p x) eqn:Hp; [|discriminate].
    exists [x], s', []. simpl. splits; auto.
    + now constructor.
    + intros m [].
  - destruct G as [Ga Gb]. simpl in H.
    apply IHa in H; auto.
    destruct H as (pre1 & s1 & l1 & Hs & Hl1 & Hc1 & Hb1 & H).
    subst s. apply IHb in H; auto; [|eapply at_pos_app; eauto].
    destruct H as (pre2 & s2 & l2 & Hs & Hl2 & Hc2 & Hb2 & H).
    subst s1. exists (pre1 ++ pre2), s2, (l2 ++ l1).
    rewrite <- !app_assoc. splits; auto.
    + now constructor.
    + intros m Hm. apply in_app_or in Hm. destruct Hm as [Hm|Hm].
      * destruct (Hb1 m Hm) as [t Ht]. exists t. apply in_or_app. now right.
      * destruct (Hb2 m Hm) as [t Ht]. exists t. apply in_or_app. now left.
  - simpl in H. apply IHa in H; auto.
    destruct H as (pre1 & s1 & l1 & Hs & Hl1 & Hc1 & Hb1 & H).
    subst s. apply (star_sound (run a) a (IHa G)) in H; auto;
      [|eapply at_pos_app; eauto].
    destruct H as (pre2 & s2 & l2 & Hs & Hl2 & Hc2 & _ & H).
    subst s1. exists (pre1 ++ pre2), s2, (l2 ++ l1).
    rewrite <- !app_assoc. splits; auto.
    + now constructor.
    + intros m Hm. destruct (Hb1 m Hm) as [t Ht]. exists t.
      apply in_or_app. now right.
  - simpl in H. apply (star_sound (run a) a (IHa G)) in H; auto.
  - simpl in H. destruct (run a s c k) as [r|] eqn:E.
    + inversion H; subst r; clear H. apply IHa in E; auto.
      destruct E as (pre & s1 & l1 & Hs & Hl & Hc1 & _ & Hk).
      exists pre, s1, l1. splits; auto.
      * now apply lang_opt_some.
      * intros m [].
    + apply sound_nil; auto. constructor.
  - destruct G as [Ga Gn]. simpl in H. apply IHa in H; auto.
    destruct H as (pre & s1 & l1 & Hs & Hl & Hc1 & Hb1 & Hk).
    subst s. rewrite consumed_app in Hk.
    exists pre, s1, ((n, pre) :: l1). splits; auto.
    + now constructor.
    + intros m t [E|Hin].
      * inversion E; subst m t. split; [now apply Gn|].
        destruct Hpos as [front Hm]. exists front, s1. exact Hm.
      * now apply Hc1.
    + intros m [E|Hm].
      * subst m. exists pre. now left.
      * destruct (Hb1 m Hm) as [t Ht]. exists t. now right.
Qed.

End RunSound.

(** ** The bound on the rounds of a loop is never what ends it *)

Lemma star_calls_le f n : calls_le f -> calls_le (star f n).
Proof.
  intros Hf. induction n as [|n IH]; intros s c k1 k2 H; simpl.
  - apply H. lia.
  - rewrite (Hf s c _ (fun s' c' =>
               if length s' <? length s then star f n s' c' k2 else None)).
    + rewrite (H s c); auto.
    + intros s' c' Hle. destruct (length s' <? length s); auto.
      apply IH. intros s'' c'' Hle'. apply H. lia.
Qed.

Lemma run_calls_le r : calls_le (run r).
Proof.
  induction r as [p|a IHa b IHb|a IHa|a IHa|a IHa|n a IHa];
    intros s c k1 k2 H; simpl.
  - destruct s as [|x s']; [reflexivity|]. destruct (p x); [|reflexivity].
    apply H. simpl. lia.
  - apply IHa. intros s' c' Hle. apply IHb. intros s'' c'' Hle'. apply H. lia.
  - apply IHa. intros s' c' Hle. apply star_calls_le; auto.
    intros s'' c'' Hle'. apply H. lia.
  - apply star_calls_le; auto.
  - rewrite (IHa s c k1 k2 H). rewrite (H s c); auto.
  - apply IHa. intros s' c' Hle. apply H. lia.
Qed.

Lemma run_calls_lt r : consuming r = true -> calls_lt (run r).
Proof.
  induction r as [p|a IHa b IHb|a IHa|a IHa|a IHa|n a IHa];
    simpl; intros Hr s c k1 k2 H; try discriminate.
  - destruct s as [|x s']; [reflexivity|]. destruct (p x); [|reflexivity].
    apply H. simpl. lia.
  - simpl. destruct (consuming a) eqn:Ea.
    + apply IHa; [solve [auto]|]. intros s' c' Hlt. apply run_calls_le.
      intros s'' c'' Hle. apply H. lia.
    + apply run_calls_le. intros s' c' Hle. apply IHb; [solve [auto]|].
      intros s'' c'' Hlt. apply H. lia.
  - simpl. apply IHa; [solve [auto]|]. intros s' c' Hlt.
    apply star_calls_le; [apply run_calls_le|].
    intros s'' c'' Hle. apply H. lia.
  - simpl. apply IHa; [solve [auto]|]. intros s' c' Hlt. apply H. lia.
Qed.

Lemma star_via_cont f n : calls_le f -> via_cont f -> via_cont (star f n).
Proof.
  intros Hle Hf. induction n as [|n IH]; intros s c; simpl; auto.
  rewrite (Hle s c _ (fun _ _ => None)).
  - now rewrite Hf.
  - intros s' c' _. destruct (length s' <? length s); auto.
Qed.

Lemma run_via_cont r : via_cont (run r).
Proof.
  induction r as [p|a IHa b IHb|a IHa|a IHa|a IHa|n a IHa]; intros s c; simpl.
  - destruct s as [|x s']; auto. destruct (p x); auto.
  - rewrite (run_calls_le a s c _ (fun _ _ => None)); auto.
  - rewrite (run_calls_le a s c _ (fun _ _ => None)); auto.
    intros s' c' _. apply star_via_cont; auto using run_calls_le.
  - apply star_via_cont; auto using run_calls_le.
  - now rewrite IHa.
  - apply IHa.
Qed.

Lemma star_fuel f :
  calls_lt f -> via_cont f ->
  forall n m s c k,
    length s <= n -> length s <= m -> star f n s c k = star f m s c k.
Proof.
  intros Hlt Hv.
  assert (Hnil : forall m c k, star f m [] c k = k [] c).
  { intros [|m] c k; simpl; auto. now rewrite Hv. }
  induction n as [|n IH]; intros m s c k Hn Hm.
  - destruct s; [|simpl in Hn; lia]. now rewrite !Hnil.
  - destruct m as [|m].
    + destruct s; [|simpl in Hm; lia]. now rewrite !Hnil.
    + simpl.
      rewrite (Hlt s c _ (fun s' c' =>
                 if length s' <? length s then star f m s' c' k else None)); auto.
      intros s' c' H. destruct (length s' <? length s); auto.
      apply IH; lia.
Qed.

(** A loop whose body reads something behaves the same under every bound
    that is at least the length of the text: the bound [length s] that [run]
    gives never ends a loop early. *)
Lemma star_fuel_enough a n s c k :
  consuming a = true -> length s <= n ->
  star (run a) n s c k = star (run a) (length s) s c k.
Proof.
  intros Ha Hn. apply star_fuel; auto using run_calls_lt, run_via_cont.
Qed.

Lemma pattern_loops_consume : loops_consume pattern = true.
Proof. reflexivity. Qed.

Lemma caps_ok_nil msg P : caps_ok msg P [].
Proof. intros n t []. Qed.

Lemma group_cases msg P c n :
  caps_ok msg P c ->
  group n c = [] \/ (P n (group n c) /\ substr (group n c) msg).
Proof.
  intros Hc. unfold group.
  destruct (find (fun e => Nat.eqb (fst e) n) c) as [[m t]|] eqn:E; [|now left].
  apply find_some in E. destruct E as [Hin Hn]. simpl in *.
  apply Nat.eqb_eq in Hn. subst m. right. now apply Hc.
Qed.

Lemma group_bound msg P c n t0 :
  caps_ok msg P c -> In (n, t0) c ->
  P n (group n c) /\ substr (group n c) msg.
Proof.
  intros Hc Hin. unfold group.
  destruct (find (fun e => Nat.eqb (fst e) n) c) as [[m t]|] eqn:E.
  - apply find_some in E. destruct E as [Hin' Hn]. simpl in *.
    apply Nat.eqb_eq in Hn. subst m. now apply Hc.
  - apply find_none with (x := (n, t0)) in E; auto.
    simpl in E. now rewrite Nat.eqb_refl in E.
Qed.

Lemma match_here_ok msg P r s rest c :
  groups_ok P r -> at_pos msg s -> match_here r s = Some (rest, c) ->
  caps_ok msg P c /\ (forall n, In n (bound r) -> exists t, In (n, t) c).
Proof.
  unfold match_here. intros G Hpos H.
  apply (run_sound msg P r G) in H; auto using caps_ok_nil.
  destruct H as (pre & s' & l & _ & _ & Hc & Hb & Hk).
  inversion Hk; subst. rewrite app_nil_r in *. now split.
Qed.

(** Every triple [findall] reports comes from the captures of one match. *)
Lemma findall_from_ok msg P r :
  groups_ok P r ->
  forall s skip, at_pos msg s ->
  forall mt, In mt (findall_from r skip s) ->
  exists c, caps_ok msg P c
            /\ (forall n, In n (bound r) -> exists t, In (n, t) c)
            /\ mt = (group 1 c, group 2 c, group 3 c).
Proof.
  intros G s. induction s as [|x s IH]; intros skip Hpos mt Hin; simpl in Hin.
  - contradiction.
  - assert (Hpos' : at_pos msg s).
    { destruct Hpos as [front H]. exists (front ++ [x]).
      now rewrite <- app_assoc. }
    destruct skip as [|n]; [|now apply (IH n)].
    destruct (match_here r (x :: s)) as [[rest c]|] eqn:E; [|now apply (IH 0)].
    destruct Hin as [Heq|Hin]; [|eapply IH; eauto].
    apply (match_here_ok msg P) in E; auto. destruct E as [Hc Hb].
    exists c. now splits.
Qed.

Lemma pattern_groups_ok : groups_ok group_lang pattern.
Proof. simpl. tauto. Qed.

(** The captures of a match of the order pattern: the quantity and the
    product phrase are always there, the unit may be empty; each is a piece
    of the message. *)
Lemma findall_pattern msg q un p :
  In (q, un, p) (findall pattern msg) ->
  (lang quantity_re q /\ substr q msg)
  /\ (un = [] \/ (lang unit_re un /\ substr un msg))
  /\ (lang product_re p /\ substr p msg).
Proof.
  intros Hin.
  apply (findall_from_ok msg group_lang pattern pattern_groups_ok) in Hin;
    [|now exists []].
  destruct Hin as (c & Hc & Hb & Heq). inversion Heq; subst; clear Heq.
  destruct (Hb 1) as [t1 H1]; [simpl; tauto|].
  destruct (Hb 3) as [t3 H3]; [simpl; tauto|].
  splits.
  - apply (group_bound msg group_lang c 1 t1 Hc H1).
  - apply (group_bound msg group_lang c 1 t1 Hc H1).
  - apply (group_cases msg group_lang c 2 Hc).
  - apply (group_bound msg group_lang c 3 t3 Hc H3).
  - apply (group_bound msg group_lang c 3 t3 Hc H3).
Qed.

(** ** [float] on a captured quantity *)

Lemma star_class p t : lang (Star (Class p)) t -> forallb p t = true.
Proof.
  intros H. remember (Star (Class p)) as r eqn:Hr.
  induction H; try discriminate; inversion Hr; subst; auto.
  match goal with
  | H : lang (Class _) _ |- _ => inversion H as [p' x Hp| | | | | | |]; subst
  end.
  simpl. rewrite Hp. now apply IHlang2.
Qed.

Lemma plus_class p t :
  lang (Plus (Class p)) t ->
  exists x t', t = x :: t' /\ p x = true /\ forallb p t' = true.
Proof.
  intros H. inversion H as [| |a s t' Hs Ht| | | | |]; subst.
  inversion Hs as [p' x Hp| | | | | | |]; subst.
  exists x, t'. splits; auto using star_class.
Qed.

Lemma isdecimal_todecimal x :
  isdecimal x = true -> exists d, todecimal x = Some d.
Proof.
  unfold isdecimal. destruct (todecimal x) as [d|]; [eauto|discriminate].
Qed.

Lemma isdot_not_decimal x : isdot x = true -> todecimal x = None.
Proof. unfold isdot. intros H. apply N.eqb_eq in H. now subst x. Qed.

(** A run of digits is read whole, up to the first code point that is not
    one. *)
Lemma span_digits_app s r :
  forallb isdecimal s = true ->
  match r with [] => True | x :: _ => todecimal x = None end ->
  exists ds, span_digits (s ++ r) = (ds, r) /\ length ds = length s.
Proof.
  intros Hs Hr. induction s as [|a s IH]; simpl in *.
  - exists []. split; auto. destruct r as [|x r]; auto. simpl. now rewrite Hr.
  - apply andb_prop in Hs. destruct Hs as [Ha Hs].
    destruct (isdecimal_todecimal a Ha) as [d Hd].
    destruct (IH Hs) as (ds & E & L).
    exists (d :: ds). rewrite Hd, E. simpl. now rewrite L.
Qed.

Lemma Q_of_N_nonneg n p : (0 <= Z.of_N n # p)%Q.
Proof. unfold Qle. simpl. lia. Qed.

(** [float] succeeds on every text the first group accepts. *)
Lemma quantity_float q :
  lang quantity_re q -> exists v, py_float q = Some v /\ (0 <= v)%Q.
Proof.
  intros H. inversion H as [|a b s t Hs Ht| | | | | |]; subst.
  apply plus_class in Hs. destruct Hs as (x & s' & Es & Hx & Hs').
  assert (Hs : forallb isdecimal s = true) by (subst s; simpl; now rewrite Hx).
  unfold py_float.
  inversion Ht as [| | | | |a|a t' Ht'|]; subst.
  - destruct (span_digits_app (x :: s') [] Hs I) as (ds & E & L).
    rewrite E. destruct ds as [|d ds]; [discriminate|].
    eexists. split; [reflexivity|apply Q_of_N_nonneg].
  - inversion Ht' as [|a b s1 t1 Hdot Hfrac| | | | | |]; subst.
    inversion Hdot as [p' y Hy| | | | | | |]; subst.
    apply plus_class in Hfrac. destruct Hfrac as (z & f' & Ef & Hz & Hf').
    assert (Hf : forallb isdecimal t1 = true) by (subst t1; simpl; now rewrite Hz).
    destruct (span_digits_app (x :: s') ([y] ++ t1) Hs (isdot_not_decimal y Hy))
      as (ds & E & L).
    rewrite E. destruct ds as [|d ds]; [discriminate|].
    change ([y] ++ t1) with (y :: t1). cbv beta iota. rewrite Hy.
    destruct (span_digits_app t1 [] Hf I) as (fs & E' & L').
    rewrite app_nil_r in E'. rewrite E'.
    eexists. split; [reflexivity|apply Q_of_N_nonneg].
Qed.

(** ** The product matcher *)

Section Matcher.

Variable lower : str -> str.
Variable ratio : str -> str -> Q.

Lemma find_app {A} (f : A -> bool) l1 l2 :
  find f (l1 ++ l2)
  = match find f l1 with Some x => Some x | None => find f l2 end.
Proof.
  induction l1 as [|a l1 IH]; simpl; auto. now destruct (f a).
Qed.

Lemma find_first {A} (f : A -> bool) pre x post :
  forallb (fun y => negb (f y)) pre = true -> f x = true ->
  find f (pre ++ x :: post) = Some x.
Proof.
  intros Hpre Hx. induction pre as [|a pre IH]; simpl in *.
  - now rewrite Hx.
  - apply andb_prop in Hpre. destruct Hpre as [Ha Hpre].
    apply negb_true_iff in Ha. rewrite Ha. auto.
Qed.

Lemma forallb_map_eq {A B} (f : B -> bool) (g : A -> B) l :
  forallb f (map g l) = forallb (fun x => f (g x)) l.
Proof. induction l as [|a l IH]; simpl; auto. now rewrite IH. Qed.

Lemma find_none_forallb {A} (f : A -> bool) l :
  forallb (fun y => negb (f y)) l = true -> find f l = None.
Proof.
  induction l as [|a l IH]; simpl; auto. intros H.
  apply andb_prop in H. destruct H as [Ha H].
  apply negb_true_iff in Ha. rewrite Ha. auto.
Qed.

(** The nested loops return the name of the first pair that reaches the
    threshold. *)
Lemma alias_phase_find pl t table :
  alias_phase ratio pl t table
  = option_map fst
      (find (fun e => reaches (ratio pl (snd e)) t) (alias_pairs table)).
Proof.
  induction table as [|[n al] rest IH]; simpl; auto.
  rewrite find_app, IH. clear IH.
  induction al as [|a al IHal]; simpl; auto.
  now destruct (reaches (ratio pl a) t).
Qed.

Lemma alias_phase_first pl t table pre n a post :
  alias_pairs table = pre ++ (n, a) :: post ->
  forallb (fun e => negb (reaches (ratio pl (snd e)) t)) pre = true ->
  reaches (ratio pl a) t = true ->
  alias_phase ratio pl t table = Some n.
Proof.
  intros E Hpre Ha. rewrite alias_phase_find, E.
  now rewrite (find_first (fun e => reaches (ratio pl (snd e)) t)).
Qed.

Lemma alias_phase_none pl t table :
  forallb (fun a => negb (reaches (ratio pl a) t)) (map snd (alias_pairs table))
  = true ->
  alias_phase ratio pl t table = None.
Proof.
  intros H. rewrite alias_phase_find.
  rewrite (find_none_forallb (fun e => reaches (ratio pl (snd e)) t)); auto.
  now rewrite forallb_map_eq in H.
Qed.

Lemma extractOne_skip query t pre best rest :
  forallb (fun c => negb (reaches (ratio query c) t)) pre = true ->
  fold_left
    (fun best choice =>
       let score := ratio query choice in
       if reaches score t
          && match best with
             | None => true
             | Some (_, b) => negb (Qle_bool score b)
             end
       then Some (choice, score) else best)
    (pre ++ rest) best
  = fold_left
    (fun best choice =>
       let score := ratio query choice in
       if reaches score t
          && match best with
             | None => true
             | Some (_, b) => negb (Qle_bool score b)
             end
       then Some (choice, score) else best)
    rest best.
Proof.
  revert best. induction pre as [|a pre IH]; simpl; auto. intros best H.
  apply andb_prop in H. destruct H as [Ha H].
  apply negb_true_iff in Ha. rewrite Ha. simpl. auto.
Qed.

Lemma extractOne_none query t choices :
  forallb (fun c => negb (reaches (ratio query c) t)) choices = true ->
  extractOne ratio query choices t = None.
Proof.
  intros H. unfold extractOne.
  rewrite <- (app_nil_r choices). now rewrite extractOne_skip.
Qed.

Lemma extractOne_keep query t c b post :
  forallb (fun x => Qle_bool (ratio query x) b) post = true ->
  fold_left
    (fun best choice =>
       let score := ratio query choice in
       if reaches score t
          && match best with
             | None => true
             | Some (_, b) => negb (Qle_bool score b)
             end
       then Some (choice, score) else best)
    post (Some (c, b))
  = Some (c, b).
Proof.
  induction post as [|a post IH]; simpl; auto. intros H.
  apply andb_prop in H. destruct H as [Ha H].
  rewrite Ha. simpl. rewrite andb_false_r. auto.
Qed.

(** The catalog phase returns a name none scores above, when the names
    before it do not reach the cutoff and it does. *)
Lemma extractOne_first query t pre c post :
  forallb (fun x => negb (reaches (ratio query x) t)) pre = true ->
  reaches (ratio query c) t = true ->
  forallb (fun x => Qle_bool (ratio query x) (ratio query c)) post = true ->
  extractOne ratio query (pre ++ c :: post) t = Some (c, ratio query c).
Proof.
  intros Hpre Hc Hpost. unfold extractOne.
  rewrite extractOne_skip; auto. simpl. rewrite Hc. simpl.
  now apply extractOne_keep.
Qed.

End Matcher.

Lemma prefixb_app t b : prefixb t (t ++ b) = true.
Proof.
  induction t as [|x t IH]; simpl; auto. now rewrite N.eqb_refl.
Qed.

Lemma substr_substrb t s : substr t s -> substrb t s = true.
Proof.
  intros (a & b & E). subst s. induction a as [|x a IH]; simpl.
  - destruct (t ++ b) eqn:E; simpl; rewrite <- E, prefixb_app; auto.
  - rewrite IH. apply orb_true_r.
Qed.

Lemma substr_nil s : substr [] s.
Proof. now exists [], s. Qed.

Section Parser.

Variable lower : str -> str.
Variable ratio : str -> str -> Q.

Lemma in_parse_matches item ms :
  In item (parse_matches lower ratio ms) ->
  exists mt, In mt ms /\ parse_match lower ratio mt = Some item.
Proof.
  induction ms as [|mt ms IH]; simpl; [contradiction|].
  destruct (parse_match lower ratio mt) as [it|] eqn:E.
  - intros [H|H].
    + subst it. exists mt. auto.
    + destruct (IH H) as (mt' & Hin & Hm). exists mt'. auto.
  - intros H. destruct (IH H) as (mt' & Hin & Hm). exists mt'. auto.
Qed.

Lemma parse_matches_length ms :
  (forall mt, In mt ms -> parse_match lower ratio mt <> None) ->
  length (parse_matches lower ratio ms) = length ms.
Proof.
  induction ms as [|mt ms IH]; simpl; auto. intros H.
  destruct (parse_match lower ratio mt) as [it|] eqn:E.
  - simpl. f_equal. apply IH. intros mt' Hin. apply H. now right.
  - exfalso. apply (H mt); auto.
Qed.

(** The loop body yields an item whenever [float] succeeds, with that
    quantity. *)
Lemma parse_match_some q un p v :
  py_float q = Some v ->
  exists item, parse_match lower ratio (q, un, p) = Some item
               /\ quantity item = v.
Proof.
  intros H. unfold parse_match. rewrite H.
  destruct (is_empty un || existsb (str_eqb (lower un)) unit_allowlist);
    eexists; split; reflexivity.
Qed.

Lemma parse_match_quantity mt item :
  parse_match lower ratio mt = Some item ->
  py_float (fst (fst mt)) = Some (quantity item).
Proof.
  destruct mt as [[q un] p]. unfold parse_match. cbn [fst].
  destruct (py_float q) as [v|]; [|discriminate].
  destruct (is_empty un || existsb (str_eqb (lower un)) unit_allowlist);
    intros H; inversion H; reflexivity.
Qed.

End Parser.

(** ** The model on sample inputs *)

(** The scan is leftmost and greedy, and gives way where the rest of the
    pattern needs it: the first numeral of a dotted chain is passed over, a
    word glued to the number is the unit, a lone word is the product. *)
Example findall_dotted_chain :
  findall pattern (u "1.2.3 kg a") = [(u "2.3", u "kg", u "a")].
Proof. vm_compute. reflexivity. Qed.

Example findall_glued_unit :
  findall pattern (u "12a b") = [(u "12", u "a", u "b")].
Proof. vm_compute. reflexivity. Qed.

Example findall_no_unit :
  findall pattern (u "2 atta") = [(u "2", [], u "atta")].
Proof. vm_compute. reflexivity. Qed.

Example findall_sign_ignored :
  findall pattern (u "-2 kg atta") = [(u "2", u "kg", u "atta")].
Proof. vm_compute. reflexivity. Qed.

Example findall_devanagari :
  findall pattern (u "५ किलो चावल") = [(u "५", u "किलो", u "चावल")].
Proof. vm_compute. reflexivity. Qed.

Example float_devanagari : py_float (u "१२.५") = Some (125 # 10)%Q.
Proof. vm_compute. reflexivity. Qed.

Example normalize_unit_kilo :
  normalize_unit py_lower (u " Kilo ") = u "kg"
  /\ normalize_unit py_lower (u "किलो") = u "kg"
  /\ normalize_unit py_lower (u "Sack") = u "sack".
Proof. splits; vm_compute; reflexivity. Qed.

Example match_product_aliases :
  match_product (u "doodh") 70 = u "milk"
  /\ match_product (u "chawal") 70 = u "rice"
  /\ match_product (u "cheeni") 70 = u "sugar".
Proof. splits; vm_compute; reflexivity. Qed.

Example fuzz_ratio_scores :
  (fuzz_ratio (u "atta aur") (u "atta") == 200 # 3)%Q
  /\ (fuzz_ratio (u "milk chahiye") (u "milk") == 50)%Q
  /\ (fuzz_ratio (u "gm sugar") (u "sugar") == 1000 # 13)%Q.
Proof. splits; vm_compute; reflexivity. Qed.

(** ** Properties of the parser *)

(** C1 (the code at the failing input).  On "5 packet biscuit and 500 gm
    sugar" the parser returns two items with quantities 5 and 500; the first
    has unit packet, but the second has unit piece and name sugar, not unit
    gm: "gm" is a key of [UNIT_MAPPINGS] and yet is not on the list
    [parse_hinglish_order] tests the unit against, so it is merged into the
    product phrase. *)
Theorem parse_biscuit_sugar :
  parse (u "5 packet biscuit and 500 gm sugar")
  = mkOrder
      [ mkItem (u "biscuit") 5 (u "packet") (u "5 packet biscuit and");
        mkItem (u "sugar") 500 (u "piece") (u "500 gm gm sugar") ]
      (u "5 packet biscuit and 500 gm sugar") 2
  /\ normalize_unit py_lower (u "gm") = u "gm".
Proof. split; vm_compute; reflexivity. Qed.

(** The names of the two items of "2 kg atta aur 1 litre milk chahiye" are
    not "atta" and "milk". *)
Lemma parse_atta_milk_names :
  map name (items (parse (u "2 kg atta aur 1 litre milk chahiye")))
  <> [u "atta"; u "milk"].
Proof. vm_compute. discriminate. Qed.

(** C2 (the code at the failing input).  "2 kg atta aur 1 litre milk
    chahiye", the first of the module's own sample orders, yields two items,
    in order, with quantities 2 and 1 and units kg and litre, but their names
    are "atta aur" and "milk chahiye", not "atta" and "milk": the filler
    words are not items of their own, yet they stay in the product phrases,
    which then reach the threshold against no alias and no catalog name and
    pass through.  The comment above the pattern lists "2 kg atta" and
    "1 litre milk" as what is to be matched. *)
Theorem parse_atta_milk :
  parse (u "2 kg atta aur 1 litre milk chahiye")
  = mkOrder
      [ mkItem (u "atta aur") 2 (u "kg") (u "2 kg atta aur");
        mkItem (u "milk chahiye") 1 (u "litre") (u "1 litre milk chahiye") ]
      (u "2 kg atta aur 1 litre milk chahiye") 2.
Proof. vm_compute. reflexivity. Qed.

(** C3 (counterexample).  For "2kg atta" the item's original text is
    "2 kg atta", which does not occur in the message. *)
Lemma original_text_not_substring :
  In (mkItem (u "atta") 2 (u "kg") (u "2 kg atta")) (items (parse (u "2kg atta")))
  /\ ~ substr (u "2 kg atta") (u "2kg atta").
Proof.
  split.
  - vm_compute. left. reflexivity.
  - intros H. apply substr_substrb in H. vm_compute in H. discriminate.
Qed.

(** C3 (amended).  Every item is what the loop body builds from one match
    of the pattern; the quantity text, unit text and product phrase that
    match captured are each a contiguous piece of the message; and when the
    unit text is empty or on the unit list, the item's original text is these
    three joined by single blanks and trimmed. *)
Theorem original_text_pieces lower ratio msg item :
  In item (items (parse_hinglish_order lower ratio msg)) ->
  exists q un p,
    In (q, un, p) (findall pattern msg)
    /\ parse_match lower ratio (q, un, p) = Some item
    /\ substr q msg /\ substr un msg /\ substr p msg
    /\ (is_empty un || existsb (str_eqb (lower un)) unit_allowlist = true ->
        item_original_text item = strip (q ++ u " " ++ un ++ u " " ++ p)).
Proof.
  intros Hin. simpl in Hin. apply in_parse_matches in Hin.
  destruct Hin as ([[q un] p] & Hin & Hm).
  exists q, un, p.
  destruct (findall_pattern msg q un p Hin) as ((_ & Hq) & Hu & (_ & Hp)).
  splits; auto.
  - destruct Hu as [E|[_ Hu]]; auto. subst un. apply substr_nil.
  - intros Hc. unfold parse_match in Hm.
    destruct (py_float q) as [v|]; [|discriminate].
    rewrite Hc in Hm. inversion Hm. reflexivity.
Qed.

Lemma original_text_pieces_witness :
  In (mkItem (u "atta") 2 (u "kg") (u "2 kg atta")) (items (parse (u "2kg atta")))
  /\ exists q un p,
      In (q, un, p) (findall pattern (u "2kg atta"))
      /\ parse_match py_lower fuzz_ratio (q, un, p)
         = Some (mkItem (u "atta") 2 (u "kg") (u "2 kg atta"))
      /\ substr q (u "2kg atta") /\ substr un (u "2kg atta")
      /\ substr p (u "2kg atta")
      /\ (is_empty un || existsb (str_eqb (py_lower un)) unit_allowlist = true ->
          u "2 kg atta" = strip (q ++ u " " ++ un ++ u " " ++ p)).
Proof.
  assert (H : In (mkItem (u "atta") 2 (u "kg") (u "2 kg atta"))
                 (items (parse (u "2kg atta")))).
  { vm_compute. left. reflexivity. }
  split; [exact H|].
  exact (original_text_pieces py_lower fuzz_ratio (u "2kg atta") _ H).
Defined.

(** C4 (counterexample).  " xyzzy123", with a leading blank, scores below 70
    everywhere, and what comes back is not the trimmed text. *)
Lemma passthrough_not_trimmed :
  no_score_reaches fuzz_ratio (strip (py_lower (u " xyzzy123"))) 70 = true
  /\ match_product (u " xyzzy123") 70 <> strip (py_lower (u " xyzzy123")).
Proof. split; vm_compute; [reflexivity|discriminate]. Qed.

(** C4 (amended).  When no alias and no catalog name scores at or above the
    threshold against the lowercased, trimmed input, the result is the input
    lowercased, not trimmed; "xyzzy123" comes back unchanged. *)
Theorem passthrough_lowercased :
  (forall lower ratio raw t,
      no_score_reaches ratio (strip (lower raw)) t = true ->
      fuzzy_match_product lower ratio raw t = lower raw)
  /\ match_product (u "xyzzy123") 70 = u "xyzzy123".
Proof.
  split; [|vm_compute; reflexivity].
  intros lower ratio raw t H. unfold no_score_reaches in H.
  rewrite forallb_app in H. apply andb_prop in H. destruct H as [Ha Hc].
  unfold fuzzy_match_product.
  rewrite alias_phase_none; auto. now rewrite extractOne_none.
Qed.

Lemma passthrough_lowercased_witness :
  no_score_reaches fuzz_ratio (strip (py_lower (u " Xyzzy123"))) 70 = true
  /\ match_product (u " Xyzzy123") 70 = u " xyzzy123".
Proof.
  assert (H : no_score_reaches fuzz_ratio (strip (py_lower (u " Xyzzy123"))) 70
              = true) by (vm_compute; reflexivity).
  split; [exact H|].
  exact (proj1 passthrough_lowercased py_lower fuzz_ratio (u " Xyzzy123") 70%Z H).
Defined.

(** C5 (counterexample).  "0 kg atta" yields an item whose quantity is zero,
    not a strictly positive one. *)
Lemma zero_quantity_kept :
  In (mkItem (u "atta") 0 (u "kg") (u "0 kg atta")) (items (parse (u "0 kg atta")))
  /\ ~ (0 < quantity (mkItem (u "atta") 0 (u "kg") (u "0 kg atta")))%Q.
Proof.
  split.
  - vm_compute. left. reflexivity.
  - vm_compute. discriminate.
Qed.

(** C5 (amended).  Every item of a parsed order has a quantity that is not
    negative, and every match of the pattern becomes an item: the pattern
    captures unsigned decimal numerals only, so no candidate is dropped, a
    zero quantity included. *)
Theorem quantity_nonnegative lower ratio msg :
  length (items (parse_hinglish_order lower ratio msg))
  = length (findall pattern msg)
  /\ forall item,
      In item (items (parse_hinglish_order lower ratio msg)) ->
      (0 <= quantity item)%Q.
Proof.
  split.
  - simpl. apply parse_matches_length. intros [[q un] p] Hin.
    destruct (findall_pattern msg q un p Hin) as ((Hq & _) & _).
    destruct (quantity_float q Hq) as (v & Hv & _).
    destruct (parse_match_some lower ratio q un p v Hv) as (it & E & _).
    rewrite E. discriminate.
  - intros item Hin. simpl in Hin. apply in_parse_matches in Hin.
    destruct Hin as ([[q un] p] & Hin & Hm).
    destruct (findall_pattern msg q un p Hin) as ((Hq & _) & _).
    destruct (quantity_float q Hq) as (v & Hv & Hpos).
    apply parse_match_quantity in Hm. simpl in Hm.
    rewrite Hv in Hm. inversion Hm. subst v. exact Hpos.
Qed.

Lemma quantity_nonnegative_witness :
  In (mkItem (u "atta") 0 (u "kg") (u "0 kg atta")) (items (parse (u "0 kg atta")))
  /\ (0 <= quantity (mkItem (u "atta") 0 (u "kg") (u "0 kg atta")))%Q.
Proof.
  assert (H : In (mkItem (u "atta") 0 (u "kg") (u "0 kg atta"))
                 (items (parse (u "0 kg atta")))).
  { vm_compute. left. reflexivity. }
  split; [exact H|].
  exact (proj2 (quantity_nonnegative py_lower fuzz_ratio (u "0 kg atta")) _ H).
Defined.

(** The alias table in iteration order. *)
Lemma alias_pairs_order :
  alias_pairs PRODUCT_ALIASES
  = [ (u "atta", u "aata"); (u "atta", u "आटा"); (u "atta", u "flour");
      (u "milk", u "doodh"); (u "milk", u "दूध");
      (u "rice", u "chawal"); (u "rice", u "चावल");
      (u "sugar", u "cheeni"); (u "sugar", u "चीनी");
      (u "oil", u "tel"); (u "oil", u "तेल");
      (u "dal", u "daal"); (u "dal", u "दाल"); (u "dal", u "lentils");
      (u "salt", u "namak"); (u "salt", u "नमक");
      (u "tea", u "chai"); (u "tea", u "चाय");
      (u "biscuit", u "biskut"); (u "biscuit", u "बिस्कुट") ].
Proof. vm_compute. reflexivity. Qed.

(** C6.  In the alias phase the entries are walked in the order of the
    table and each alias list in order; the first alias whose score against
    the lowercased, trimmed input reaches the threshold decides, and its
    canonical name is returned.  It is the first such alias, not the best:
    "chaai" resolves to rice through "chawal", although the later alias
    "chai" of tea scores higher. *)
Theorem alias_first_match :
  (forall lower ratio raw t pre name alias post,
      alias_pairs PRODUCT_ALIASES = pre ++ (name, alias) :: post ->
      forallb (fun e => negb (reaches (ratio (strip (lower raw)) (snd e)) t)) pre
      = true ->
      reaches (ratio (strip (lower raw)) alias) t = true ->
      fuzzy_match_product lower ratio raw t = name)
  /\ (match_product (u "chaai") 70 = u "rice"
      /\ In (u "tea", u "chai") (alias_pairs PRODUCT_ALIASES)
      /\ (fuzz_ratio (u "chaai") (u "chawal") < fuzz_ratio (u "chaai") (u "chai"))%Q).
Proof.
  split.
  - intros lower ratio raw t pre n a post E Hpre Ha.
    unfold fuzzy_match_product.
    now rewrite (alias_phase_first ratio _ t _ pre n a post E Hpre Ha).
  - splits.
    + vm_compute. reflexivity.
    + rewrite alias_pairs_order. simpl. tauto.
    + vm_compute. reflexivity.
Qed.

Lemma alias_first_match_witness :
  alias_pairs PRODUCT_ALIASES
  = firstn 5 (alias_pairs PRODUCT_ALIASES)
      ++ (u "rice", u "chawal") :: skipn 6 (alias_pairs PRODUCT_ALIASES)
  /\ forallb (fun e => negb (reaches (fuzz_ratio (strip (py_lower (u "chaai")))
                                                 (snd e)) 70))
             (firstn 5 (alias_pairs PRODUCT_ALIASES)) = true
  /\ reaches (fuzz_ratio (strip (py_lower (u "chaai"))) (u "chawal")) 70 = true
  /\ fuzzy_match_product py_lower fuzz_ratio (u "chaai") 70 = u "rice".
Proof.
  assert (H1 : alias_pairs PRODUCT_ALIASES
               = firstn 5 (alias_pairs PRODUCT_ALIASES)
                   ++ (u "rice", u "chawal") :: skipn 6 (alias_pairs PRODUCT_ALIASES))
    by (vm_compute; reflexivity).
  assert (H2 : forallb (fun e => negb (reaches (fuzz_ratio (strip (py_lower (u "chaai")))
                                                           (snd e)) 70))
                       (firstn 5 (alias_pairs PRODUCT_ALIASES)) = true)
    by (vm_compute; reflexivity).
  assert (H3 : reaches (fuzz_ratio (strip (py_lower (u "chaai"))) (u "chawal")) 70
               = true)
    by (vm_compute; reflexivity).
  split; [exact H1|]. split; [exact H2|]. split; [exact H3|].
  exact (proj1 alias_first_match py_lower fuzz_ratio (u "chaai") 70%Z
               _ _ _ _ H1 H2 H3).
Defined.

Lemma reaches_eq score t : (score == inject_Z t)%Q -> reaches score t = true.
Proof.
  intros H. unfold reaches. apply Qle_bool_iff. rewrite H. apply Qle_refl.
Qed.

Lemma forallb_impl {A} (f g : A -> bool) l :
  (forall x, f x = true -> g x = true) ->
  forallb f l = true -> forallb g l = true.
Proof.
  intros H. induction l as [|a l IH]; simpl; auto. intros Hf.
  apply andb_prop in Hf. destruct Hf as [Ha Hl].
  rewrite (H a Ha). simpl. auto.
Qed.

(** C7.  A score that equals the threshold is accepted, in both phases: an
    alias that scores exactly the threshold, every earlier alias scoring
    below it, gives its canonical name; and when no alias reaches the
    threshold, a catalog name that scores exactly the threshold, the
    earlier names scoring below it and no later name above it, is
    returned. *)
Theorem threshold_inclusive lower ratio raw t :
  (forall pre name alias post,
      alias_pairs PRODUCT_ALIASES = pre ++ (name, alias) :: post ->
      forallb (fun e => negb (reaches (ratio (strip (lower raw)) (snd e)) t)) pre
      = true ->
      (ratio (strip (lower raw)) alias == inject_Z t)%Q ->
      fuzzy_match_product lower ratio raw t = name)
  /\ (forall pre choice post,
      known_products = pre ++ choice :: post ->
      forallb (fun a => negb (reaches (ratio (strip (lower raw)) a) t))
              (map snd (alias_pairs PRODUCT_ALIASES)) = true ->
      forallb (fun c => negb (reaches (ratio (strip (lower raw)) c) t)) pre
      = true ->
      (ratio (strip (lower raw)) choice == inject_Z t)%Q ->
      forallb (fun c => Qle_bool (ratio (strip (lower raw)) c) (inject_Z t)) post
      = true ->
      fuzzy_match_product lower ratio raw t = choice).
Proof.
  split.
  - intros pre n a post E Hpre Ha. apply reaches_eq in Ha.
    unfold fuzzy_match_product.
    now rewrite (alias_phase_first ratio _ t _ pre n a post E Hpre Ha).
  - intros pre c post E Hal Hpre Hc Hpost.
    unfold fuzzy_match_product. rewrite alias_phase_none; auto.
    rewrite E, extractOne_first; auto using reaches_eq.
    revert Hpost. apply forallb_impl. intros x Hx.
    apply Qle_bool_iff. apply Qle_bool_iff in Hx. now rewrite Hc.
Qed.

Lemma threshold_inclusive_witness :
  fuzzy_match_product py_lower fuzz_ratio (u "atta aur") 50 = u "atta"
  /\ fuzzy_match_product py_lower fuzz_ratio (u "mixx") 50 = u "milk".
Proof.
  split.
  - apply (proj1 (threshold_inclusive py_lower fuzz_ratio (u "atta aur") 50%Z)
                 [] (u "atta") (u "aata") (skipn 1 (alias_pairs PRODUCT_ALIASES))).
    + vm_compute. reflexivity.
    + reflexivity.
    + vm_compute. reflexivity.
  - apply (proj2 (threshold_inclusive py_lower fuzz_ratio (u "mixx") 50%Z)
                 [u "atta"] (u "milk") (skipn 2 known_products)).
    + vm_compute. reflexivity.
    + vm_compute. reflexivity.
    + vm_compute. reflexivity.
    + vm_compute. reflexivity.
    + vm_compute. reflexivity.
Defined.

(** When the loop body yields an item for every match, the items are what
    it yields, match by match. *)
Lemma parse_matches_map lower ratio ms :
  (forall mt, In mt ms -> parse_match lower ratio mt <> None) ->
  map Some (parse_matches lower ratio ms) = map (parse_match lower ratio) ms.
Proof.
  induction ms as [|mt ms IH]; intros H; simpl; auto.
  destruct (parse_match lower ratio mt) as [it|] eqn:E.
  - simpl. f_equal. apply IH. intros mt' Hin. apply H. now right.
  - exfalso. apply (H mt); auto. now left.
Qed.

(** C8.  On every message the parser runs to its end and returns an order.
    [float], the one call of the function that can raise on a text, is given
    unsigned decimal numerals only and succeeds on every match, so no
    exception is raised, caught or not, and the loop body yields an item for
    each match: the items of the order are these, in the order of the
    matches.  The count kept in the order is the length of its list of
    items, which is the number of matches; the message is kept as it came;
    and a message in which the pattern matches nowhere gives an order with
    no items and count 0, as "namaste ji" does. *)
Theorem total_items_is_length lower ratio msg :
  (forall q un p, In (q, un, p) (findall pattern msg) -> py_float q <> None)
  /\ map Some (items (parse_hinglish_order lower ratio msg))
     = map (parse_match lower ratio) (findall pattern msg)
  /\ total_items (parse_hinglish_order lower ratio msg)
     = length (items (parse_hinglish_order lower ratio msg))
  /\ total_items (parse_hinglish_order lower ratio msg)
     = length (findall pattern msg)
  /\ original_text (parse_hinglish_order lower ratio msg) = msg
  /\ (findall pattern msg = [] ->
      parse_hinglish_order lower ratio msg = mkOrder [] msg 0)
  /\ parse_hinglish_order lower ratio (u "namaste ji")
     = mkOrder [] (u "namaste ji") 0.
Proof.
  assert (Hf : forall q un p,
             In (q, un, p) (findall pattern msg) ->
             exists v, py_float q = Some v).
  { intros q un p Hin.
    destruct (findall_pattern msg q un p Hin) as ((Hq & _) & _).
    destruct (quantity_float q Hq) as (v & Hv & _). now exists v. }
  assert (Hm : forall mt,
             In mt (findall pattern msg) -> parse_match lower ratio mt <> None).
  { intros [[q un] p] Hin. destruct (Hf q un p Hin) as [v Hv].
    destruct (parse_match_some lower ratio q un p v Hv) as (it & E & _).
    rewrite E. discriminate. }
  splits.
  - intros q un p Hin. destruct (Hf q un p Hin) as [v Hv].
    rewrite Hv. discriminate.
  - simpl. now apply parse_matches_map.
  - reflexivity.
  - simpl. now apply parse_matches_length.
  - reflexivity.
  - intros E. unfold parse_hinglish_order. rewrite E. reflexivity.
  - vm_compute. reflexivity.
Qed.

(** C9.  The empty message gives an order with no items and count 0, and
    for every order with no items the reply is the fixed apology with the
    customer's name in it, not a list of items. *)
Theorem empty_order_reply lower ratio title float_str :
  parse_hinglish_order lower ratio (u "") = mkOrder [] [] 0
  /\ forall order customer_name,
      items order = [] ->
      generate_reply title float_str (Some order) customer_name
      = u "Sorry " ++ customer_name
          ++ u ", I couldn't understand your order. Please try again.".
Proof.
  split.
  - vm_compute. reflexivity.
  - intros order customer_name H. unfold generate_reply. rewrite H. reflexivity.
Qed.

Lemma empty_order_reply_witness :
  items (parse (u "")) = []
  /\ generate_reply (fun s => s) (fun _ => []) (Some (parse (u ""))) (u "Rajesh")
     = u "Sorry " ++ u "Rajesh"
         ++ u ", I couldn't understand your order. Please try again.".
Proof.
  assert (H : items (parse (u "")) = []) by (vm_compute; reflexivity).
  split; [exact H|].
  exact (proj2 (empty_order_reply py_lower fuzz_ratio (fun s => s) (fun _ => []))
               (parse (u "")) (u "Rajesh") H).
Defined.

(** C10.  The branch of [parse_hinglish_order] that skips a candidate whose
    quantity text [float] rejects is never taken: every quantity text the
    pattern captures is an unsigned decimal numeral, [float] gives it a
    value that is not negative, and the loop body yields an item. *)
Theorem float_never_fails lower ratio msg q un p :
  In (q, un, p) (findall pattern msg) ->
  exists v,
    py_float q = Some v /\ (0 <= v)%Q
    /\ exists item,
        parse_match lower ratio (q, un, p) = Some item /\ quantity item = v.
Proof.
  intros Hin.
  destruct (findall_pattern msg q un p Hin) as ((Hq & _) & _).
  destruct (quantity_float q Hq) as (v & Hv & Hpos).
  exists v. splits; auto. now apply parse_match_some.
Qed.

Lemma float_never_fails_witness :
  In (u "500", u "gm", u "sugar")
     (findall pattern (u "5 packet biscuit and 500 gm sugar"))
  /\ exists v,
      py_float (u "500") = Some v /\ (0 <= v)%Q
      /\ exists item,
          parse_match py_lower fuzz_ratio (u "500", u "gm", u "sugar") = Some item
          /\ quantity item = v.
Proof.
  assert (H : In (u "500", u "gm", u "sugar")
                 (findall pattern (u "5 packet biscuit and 500 gm sugar"))).
  { vm_compute. right. left. reflexivity. }
  split; [exact H|].
  exact (float_never_fails py_lower fuzz_ratio _ _ _ _ H).
Defined.

From Stdlib Require Import Sorting.Sorted Sorting.Permutation.

(** ** Further properties of the product matcher *)

Lemma extractOne_fold ratio query choices t :
  extractOne ratio query choices t
  = fold_left (extract_step ratio query t) choices None.
Proof. reflexivity. Qed.

Lemma reaches_false score t :
  reaches score t = false -> (score < inject_Z t)%Q.
Proof.
  unfold reaches. intros H. apply Qnot_le_lt. intros Hle.
  apply Qle_bool_iff in Hle. congruence.
Qed.

Lemma reaches_true score t :
  reaches score t = true -> (inject_Z t <= score)%Q.
Proof. unfold reaches. apply Qle_bool_iff. Qed.

Lemma extract_step_best ratio query t seen best x :
  best_of ratio query t seen best ->
  best_of ratio query t (seen ++ [x]) (extract_step ratio query t best x).
Proof.
  unfold extract_step. destruct best as [[c sc]|]; simpl.
  - intros (Hsc & Hc & pre & post & Hseen & Hpre & Hpost). subst sc.
    destruct (reaches (ratio query x) t) eqn:Hx; simpl.
    + destruct (Qle_bool (ratio query x) (ratio query c)) eqn:Hle; simpl.
      * splits; auto. exists pre, (post ++ [x]). subst seen.
        rewrite <- app_assoc. splits; auto.
        intros y Hy. apply in_app_or in Hy. destruct Hy as [Hy|[Hy|[]]]; auto.
        subst y. now apply Qle_bool_iff.
      * assert (Hlt : (ratio query c < ratio query x)%Q).
        { apply Qnot_le_lt. intros H. apply Qle_bool_iff in H. congruence. }
        splits; auto. exists seen, []. splits; auto; [|intros y []].
        intros y Hy. subst seen. apply in_app_or in Hy.
        destruct Hy as [Hy|[Hy|Hy]].
        -- eapply Qlt_trans; eauto.
        -- now subst y.
        -- eapply Qle_lt_trans; eauto.
    + splits; auto. exists pre, (post ++ [x]). subst seen.
      rewrite <- app_assoc. splits; auto.
      intros y Hy. apply in_app_or in Hy. destruct Hy as [Hy|[Hy|[]]]; auto.
      subst y. apply Qlt_le_weak. eapply Qlt_le_trans.
      * apply reaches_false. exact Hx.
      * now apply reaches_true.
  - intros Hnone. destruct (reaches (ratio query x) t) eqn:Hx; simpl.
    + splits; auto. exists seen, []. splits; auto; [|intros y []].
      intros y Hy. eapply Qlt_le_trans.
      * apply reaches_false. now apply Hnone.
      * now apply reaches_true.
    + intros y Hy. apply in_app_or in Hy. destruct Hy as [Hy|[Hy|[]]]; auto.
      now subst y.
Qed.

Lemma extract_fold_best ratio query t choices :
  forall seen best,
    best_of ratio query t seen best ->
    best_of ratio query t (seen ++ choices)
            (fold_left (extract_step ratio query t) choices best).
Proof.
  induction choices as [|x choices IH]; intros seen best H; simpl.
  - now rewrite app_nil_r.
  - replace (seen ++ x :: choices) with ((seen ++ [x]) ++ choices)
      by now rewrite <- app_assoc.
    apply IH. now apply extract_step_best.
Qed.

Lemma extractOne_best ratio query t choices :
  best_of ratio query t choices (extractOne ratio query choices t).
Proof.
  rewrite extractOne_fold.
  apply (extract_fold_best ratio query t choices [] None). intros x [].
Qed.

Lemma alias_phase_some_in ratio pl t table n :
  alias_phase ratio pl t table = Some n -> In n (map fst table).
Proof.
  induction table as [|[m al] rest IH]; simpl; [discriminate|].
  destruct (first_alias ratio pl t al).
  - intros H. inversion H. now left.
  - intros H. right. auto.
Qed.

Lemma alias_phase_none_inv ratio pl t table :
  alias_phase ratio pl t table = None ->
  forallb (fun a => negb (reaches (ratio pl a) t)) (map snd (alias_pairs table))
  = true.
Proof.
  rewrite alias_phase_find. intros H.
  rewrite forallb_map_eq. apply forallb_forall. intros e He.
  destruct (find (fun e => reaches (ratio pl (snd e)) t) (alias_pairs table))
    as [e'|] eqn:E; [discriminate|].
  apply find_none with (x := e) in E; auto. now rewrite E.
Qed.

Lemma fuzzy_match_cases lower ratio raw t :
  (In (fuzzy_match_product lower ratio raw t) known_products
   /\ no_score_reaches ratio (strip (lower raw)) t = false)
  \/ (fuzzy_match_product lower ratio raw t = lower raw
      /\ no_score_reaches ratio (strip (lower raw)) t = true).
Proof.
  unfold fuzzy_match_product, no_score_reaches.
  rewrite forallb_app.
  destruct (alias_phase ratio (strip (lower raw)) t PRODUCT_ALIASES)
    as [n|] eqn:Ea.
  - left. split.
    + now apply alias_phase_some_in in Ea.
    + destruct (forallb _ (map snd (alias_pairs PRODUCT_ALIASES))) eqn:Ef; auto.
      apply alias_phase_none in Ef. congruence.
  - rewrite (alias_phase_none_inv _ _ _ _ Ea). cbn [andb].
    pose proof (extractOne_best ratio (strip (lower raw)) t known_products) as Hb.
    destruct (extractOne ratio (strip (lower raw)) known_products t)
      as [[c sc]|] eqn:Ee; unfold best_of in Hb.
    + left. destruct Hb as (Hsc & Hc & pre & post & Hk & _). split.
      * rewrite Hk. apply in_or_app. right. now left.
      * destruct (forallb _ known_products) eqn:Ef; auto.
        apply extractOne_none in Ef. congruence.
    + right. split; auto. apply forallb_forall. intros x Hx.
      now rewrite (Hb x Hx).
Qed.

(** X1.  The result of the matcher is a catalog name exactly when some alias
    or catalog name scores at or above the threshold against the lowercased,
    trimmed input; otherwise it is the lowercased input.  It is never
    anything else. *)
Theorem match_result_cases lower ratio raw t :
  (In (fuzzy_match_product lower ratio raw t) known_products
   /\ no_score_reaches ratio (strip (lower raw)) t = false)
  \/ (fuzzy_match_product lower ratio raw t = lower raw
      /\ no_score_reaches ratio (strip (lower raw)) t = true).
Proof. apply fuzzy_match_cases. Qed.

(** X2.  When no alias reaches the threshold and some catalog name does, the
    result is the catalog name with the highest score, the earliest one in
    catalog order among equals: every name before it scores strictly lower,
    every name after it scores no higher. *)
Theorem catalog_phase_best lower ratio raw t :
  forallb (fun a => negb (reaches (ratio (strip (lower raw)) a) t))
          (map snd (alias_pairs PRODUCT_ALIASES)) = true ->
  existsb (fun c => reaches (ratio (strip (lower raw)) c) t) known_products
  = true ->
  exists pre post,
    known_products = pre ++ fuzzy_match_product lower ratio raw t :: post
    /\ reaches (ratio (strip (lower raw)) (fuzzy_match_product lower ratio raw t)) t
       = true
    /\ (forall x, In x pre ->
                  (ratio (strip (lower raw)) x
                   < ratio (strip (lower raw))
                           (fuzzy_match_product lower ratio raw t))%Q)
    /\ (forall x, In x post ->
                  (ratio (strip (lower raw)) x
                   <= ratio (strip (lower raw))
                            (fuzzy_match_product lower ratio raw t))%Q).
Proof.
  intros Ha Hc. unfold fuzzy_match_product.
  rewrite alias_phase_none; auto.
  pose proof (extractOne_best ratio (strip (lower raw)) t known_products) as Hb.
  destruct (extractOne ratio (strip (lower raw)) known_products t)
    as [[c sc]|] eqn:Ee; unfold best_of in Hb.
  - destruct Hb as (Hsc & Hr & pre & post & Hk & Hpre & Hpost). subst sc.
    exists pre, post. splits; auto.
  - apply existsb_exists in Hc. destruct Hc as (x & Hx & Hr).
    rewrite (Hb x Hx) in Hr. discriminate.
Qed.

Lemma catalog_phase_best_witness :
  forallb (fun a => negb (reaches (fuzz_ratio (strip (py_lower (u "gm sugar"))) a) 70))
          (map snd (alias_pairs PRODUCT_ALIASES)) = true
  /\ existsb (fun c => reaches (fuzz_ratio (strip (py_lower (u "gm sugar"))) c) 70)
             known_products = true
  /\ exists pre post,
      known_products
      = pre ++ fuzzy_match_product py_lower fuzz_ratio (u "gm sugar") 70 :: post
      /\ reaches (fuzz_ratio (strip (py_lower (u "gm sugar")))
                             (fuzzy_match_product py_lower fuzz_ratio (u "gm sugar") 70))
                 70 = true
      /\ (forall x, In x pre ->
                    (fuzz_ratio (strip (py_lower (u "gm sugar"))) x
                     < fuzz_ratio (strip (py_lower (u "gm sugar")))
                                  (fuzzy_match_product py_lower fuzz_ratio
                                                       (u "gm sugar") 70))%Q)
      /\ (forall x, In x post ->
                    (fuzz_ratio (strip (py_lower (u "gm sugar"))) x
                     <= fuzz_ratio (strip (py_lower (u "gm sugar")))
                                   (fuzzy_match_product py_lower fuzz_ratio
                                                        (u "gm sugar") 70))%Q).
Proof.
  assert (H1 : forallb (fun a => negb (reaches (fuzz_ratio (strip (py_lower (u "gm sugar"))) a) 70))
                       (map snd (alias_pairs PRODUCT_ALIASES)) = true)
    by (vm_compute; reflexivity).
  assert (H2 : existsb (fun c => reaches (fuzz_ratio (strip (py_lower (u "gm sugar"))) c) 70)
                       known_products = true)
    by (vm_compute; reflexivity).
  split; [exact H1|]. split; [exact H2|].
  exact (catalog_phase_best py_lower fuzz_ratio (u "gm sugar") 70%Z H1 H2).
Defined.

(** ** Further properties of the parser *)

Lemma str_eqb_eq a b : str_eqb a b = true -> a = b.
Proof.
  unfold str_eqb. destruct (list_eq_dec N.eq_dec a b); [auto|discriminate].
Qed.

(** On a word of the unit list [normalize_unit] changes nothing. *)
Lemma normalize_unit_allowlist lower un :
  existsb (str_eqb (lower un)) unit_allowlist = true ->
  normalize_unit lower un = lower un /\ In (lower un) unit_allowlist.
Proof.
  intros H. apply existsb_exists in H. destruct H as (x & Hx & He).
  apply str_eqb_eq in He. unfold normalize_unit. rewrite He. split; auto.
  destruct Hx as [E|[E|[E|[E|[]]]]]; subst x; vm_compute; reflexivity.
Qed.

(** X3.  Every item of a parsed order has one of four units: kg, litre,
    piece or packet.  The other values of the unit table (gm, ml, bottle,
    box, dozen) are never given to an item. *)
Theorem parsed_units lower ratio msg item :
  In item (items (parse_hinglish_order lower ratio msg)) ->
  In (unit item) [u "kg"; u "litre"; u "piece"; u "packet"].
Proof.
  intros Hin. simpl in Hin. apply in_parse_matches in Hin.
  destruct Hin as ([[q un] p] & _ & Hm). unfold parse_match in Hm.
  destruct (py_float q) as [v|]; [|discriminate].
  destruct un as [|x un].
  - simpl in Hm. inversion Hm. simpl. tauto.
  - cbn [is_empty orb] in Hm.
    destruct (existsb (str_eqb (lower (x :: un))) unit_allowlist) eqn:E.
    + apply normalize_unit_allowlist in E. destruct E as [En Ei].
      inversion Hm. cbn [unit]. rewrite En. exact Ei.
    + inversion Hm. simpl. tauto.
Qed.

Lemma parsed_units_witness :
  In (mkItem (u "sugar") 500 (u "piece") (u "500 gm gm sugar"))
     (items (parse (u "5 packet biscuit and 500 gm sugar")))
  /\ In (u "piece") [u "kg"; u "litre"; u "piece"; u "packet"].
Proof.
  assert (H : In (mkItem (u "sugar") 500 (u "piece") (u "500 gm gm sugar"))
                 (items (parse (u "5 packet biscuit and 500 gm sugar")))).
  { vm_compute. right. left. reflexivity. }
  split; [exact H|].
  exact (parsed_units py_lower fuzz_ratio _ _ H).
Defined.

(** What the first group accepts begins with a decimal digit. *)
Lemma quantity_head q :
  lang quantity_re q -> exists x q', q = x :: q' /\ isdecimal x = true.
Proof.
  intros H. inversion H as [|a b s t Hs Ht| | | | | |]; subst.
  apply plus_class in Hs. destruct Hs as (x & s' & Es & Hx & _). subst s.
  exists x, (s' ++ t). split; auto.
Qed.

Lemma class_plus_length p t : lang (Plus (Class p)) t -> 1 <= length t.
Proof.
  intros H. apply plus_class in H. destruct H as (x & t' & E & _). subst t.
  simpl. lia.
Qed.

(** A match of the order pattern begins with a decimal digit and is at least
    three code points long: a digit, a blank, a letter. *)
Lemma pattern_lang_shape pre :
  lang pattern pre ->
  (exists x pre', pre = x :: pre' /\ isdecimal x = true) /\ 3 <= length pre.
Proof.
  intros H.
  inversion H as [|a b q r1 Hq H1| | | | | |]; subst.
  inversion Hq as [| | | | | | |n a q' Hq']; subst.
  inversion H1 as [|a b w1 r2 Hw1 H2| | | | | |]; subst.
  inversion H2 as [|a b un r3 Hun H3| | | | | |]; subst.
  inversion H3 as [|a b w2 p Hw2 Hp| | | | | |]; subst.
  inversion Hp as [| | | | | | |n a p' Hp']; subst.
  inversion Hp' as [|a b p1 p2 Hp1 Hp2| | | | | |]; subst.
  destruct (quantity_head q Hq') as (x & q' & Eq & Hx). subst q.
  apply class_plus_length in Hw2. apply class_plus_length in Hp1.
  split.
  - exists x, (q' ++ w1 ++ un ++ w2 ++ p1 ++ p2). split; auto.
  - rewrite !length_app. simpl. lia.
Qed.

Lemma match_here_shape s rest c :
  match_here pattern s = Some (rest, c) ->
  (exists x s', s = x :: s' /\ isdecimal x = true)
  /\ length rest + 3 <= length s.
Proof.
  unfold match_here. intros H.
  apply (run_sound s group_lang pattern pattern_groups_ok) in H;
    [|now exists []|apply caps_ok_nil].
  destruct H as (pre & s' & l & Es & Hl & _ & _ & Hk).
  inversion Hk; subst.
  destruct (pattern_lang_shape pre Hl) as ((x & pre' & E & Hx) & Hlen).
  split.
  - subst pre. exists x, (pre' ++ rest). split; auto.
  - rewrite length_app. lia.
Qed.

Lemma findall_from_no_digit s :
  forallb (fun c => negb (isdecimal c)) s = true ->
  forall skip, findall_from pattern skip s = [].
Proof.
  induction s as [|x s IH]; intros H skip; [reflexivity|].
  cbn [forallb] in H. apply andb_prop in H. destruct H as [Hx Hs].
  cbn [findall_from]. destruct skip as [|n]; [|now apply IH].
  destruct (match_here pattern (x :: s)) as [[rest c]|] eqn:E; [|now apply IH].
  apply match_here_shape in E. destruct E as ((y & s' & Ey & Hy) & _).
  inversion Ey; subst y. rewrite Hy in Hx. discriminate.
Qed.

(** X4.  A message without a decimal digit is never understood: the parsed
    order has no items, and the reply to it is the apology. *)
Theorem no_digit_no_items lower ratio title float_str msg customer_name :
  forallb (fun c => negb (isdecimal c)) msg = true ->
  parse_hinglish_order lower ratio msg = mkOrder [] msg 0
  /\ generate_reply title float_str
                    (Some (parse_hinglish_order lower ratio msg)) customer_name
     = u "Sorry " ++ customer_name
         ++ u ", I couldn't understand your order. Please try again.".
Proof.
  intros H.
  assert (E : parse_hinglish_order lower ratio msg = mkOrder [] msg 0).
  { unfold parse_hinglish_order, findall.
    now rewrite (findall_from_no_digit msg H 0). }
  split; [exact E|]. rewrite E. reflexivity.
Qed.

Lemma no_digit_no_items_witness :
  forallb (fun c => negb (isdecimal c)) (u "do kilo atta bhejo") = true
  /\ parse_hinglish_order py_lower fuzz_ratio (u "do kilo atta bhejo")
     = mkOrder [] (u "do kilo atta bhejo") 0
  /\ generate_reply (fun s => s) (fun _ => [])
                    (Some (parse_hinglish_order py_lower fuzz_ratio
                                                (u "do kilo atta bhejo")))
                    (u "Rajesh")
     = u "Sorry " ++ u "Rajesh"
         ++ u ", I couldn't understand your order. Please try again.".
Proof.
  assert (H : forallb (fun c => negb (isdecimal c)) (u "do kilo atta bhejo") = true)
    by (vm_compute; reflexivity).
  split; [exact H|].
  exact (no_digit_no_items py_lower fuzz_ratio (fun s => s) (fun _ => [])
                           (u "do kilo atta bhejo") (u "Rajesh") H).
Defined.

Lemma findall_from_count s :
  forall skip, 3 * length (findall_from pattern skip s) <= length s - skip.
Proof.
  induction s as [|x s IH]; intros skip; [simpl; lia|].
  cbn [findall_from]. destruct skip as [|n].
  - destruct (match_here pattern (x :: s)) as [[rest c]|] eqn:E.
    + apply match_here_shape in E. destruct E as (_ & Hlen).
      pose proof (IH (length (x :: s) - length rest - 1)) as H.
      cbn [length] in *. lia.
    + pose proof (IH 0) as H. cbn [length]. lia.
  - pose proof (IH n) as H. cbn [length]. lia.
Qed.

(** X5.  Each item takes at least three code points of the message: the
    count of items is at most a third of the message's length. *)
Theorem items_count_bound lower ratio msg :
  3 * total_items (parse_hinglish_order lower ratio msg) <= length msg.
Proof.
  cbn [parse_hinglish_order total_items].
  assert (H : length (parse_matches lower ratio (findall pattern msg))
              <= length (findall pattern msg)).
  { generalize (findall pattern msg). intros ms.
    induction ms as [|mt ms IH]; simpl; auto.
    destruct (parse_match lower ratio mt); simpl; lia. }
  pose proof (findall_from_count msg 0) as Hc. unfold findall in *. lia.
Qed.

(** ** [strip] and [py_lower] *)

Lemma lstrip_suffix s : exists pre, s = pre ++ lstrip s.
Proof.
  induction s as [|x s IH]; simpl.
  - now exists [].
  - destruct (isspace x).
    + destruct IH as [pre E]. exists (x :: pre). simpl. now rewrite <- E.
    + now exists [].
Qed.

Lemma lstrip_head s :
  lstrip s = [] \/ exists x r, lstrip s = x :: r /\ isspace x = false.
Proof.
  induction s as [|x s IH]; simpl; auto.
  destruct (isspace x) eqn:E; auto. right. now exists x, s.
Qed.

Lemma lstrip_fixed x r : isspace x = false -> lstrip (x :: r) = x :: r.
Proof. intros H. simpl. now rewrite H. Qed.

Lemma lstrip_idem s : lstrip (lstrip s) = lstrip s.
Proof.
  destruct (lstrip_head s) as [E|(x & r & E & Hx)]; rewrite E; auto.
  now apply lstrip_fixed.
Qed.

(** The trimmed text neither begins nor ends with a blank. *)
Lemma strip_ends s :
  lstrip (strip s) = strip s /\ lstrip (rev (strip s)) = rev (strip s).
Proof.
  unfold strip, rstrip. rewrite rev_involutive.
  split; [|apply lstrip_idem].
  destruct (lstrip_suffix (rev (lstrip s))) as [pre E].
  destruct (lstrip (rev (lstrip s))) as [|y b] eqn:Eb; auto.
  assert (Ea : lstrip s = rev (y :: b) ++ rev pre).
  { rewrite <- rev_app_distr, <- E. now rewrite rev_involutive. }
  destruct (rev (y :: b)) as [|z w] eqn:Ez.
  - apply (f_equal (@length N)) in Ez. rewrite length_rev in Ez. discriminate.
  - destruct (lstrip_head s) as [E0|(x & r & E0 & Hx)].
    + rewrite E0 in Ea. discriminate.
    + rewrite E0 in Ea. simpl in Ea. inversion Ea; subst.
      now apply lstrip_fixed.
Qed.

Lemma strip_fixed s :
  lstrip s = s -> lstrip (rev s) = rev s -> strip s = s.
Proof.
  intros H1 H2. unfold strip, rstrip. rewrite H1, H2. apply rev_involutive.
Qed.

Lemma strip_idem s : strip (strip s) = strip s.
Proof. destruct (strip_ends s). now apply strip_fixed. Qed.

Lemma in_lstrip d s : In d (lstrip s) -> In d s.
Proof.
  destruct (lstrip_suffix s) as [pre E]. intros H. rewrite E.
  apply in_or_app. now right.
Qed.

Lemma in_strip d s : In d (strip s) -> In d s.
Proof.
  unfold strip, rstrip. intros H. apply in_rev in H.
  apply in_lstrip in H. apply in_rev in H. now apply in_lstrip in H.
Qed.

(** A text that begins and ends with something that is not a blank is its
    own trimmed form. *)
Lemma strip_word_ends x r r' y :
  isspace x = false -> isspace y = false -> x :: r = r' ++ [y] ->
  strip (x :: r) = x :: r.
Proof.
  intros Hx Hy E. apply strip_fixed.
  - now apply lstrip_fixed.
  - rewrite E, rev_app_distr. simpl. now rewrite Hy.
Qed.

Lemma in_code_points_upto c n :
  (c < n)%N -> In c (code_points_upto n).
Proof.
  intros H. unfold code_points_upto.
  rewrite <- (N2Nat.id c). apply in_map. apply in_seq. lia.
Qed.

Lemma in_range_above lo hi c : (hi < c)%N -> in_range lo hi c = false.
Proof.
  intros H. unfold in_range. apply andb_false_iff. right.
  now apply N.leb_gt.
Qed.

Lemma lower_cp_above c : (0x212a < c)%N -> lower_cp c = [c].
Proof.
  intros H. unfold lower_cp.
  rewrite !in_range_above by lia. cbn [andb].
  destruct (N.eqb_spec c 0x130); [lia|].
  destruct (N.eqb_spec c 0x212a); [lia|]. reflexivity.
Qed.

Lemma lower_settled_upto :
  forallb lower_settled (code_points_upto 8491) = true.
Proof. vm_compute. reflexivity. Qed.

Lemma lower_cp_settled c d : In d (lower_cp c) -> lower_cp d = [d].
Proof.
  destruct (N.lt_ge_cases c 8491) as [H|H].
  - pose proof lower_settled_upto as Hs.
    rewrite forallb_forall in Hs.
    specialize (Hs c (in_code_points_upto c 8491 H)).
    unfold lower_settled in Hs. rewrite forallb_forall in Hs.
    intros Hd. now apply str_eqb_eq, Hs.
  - rewrite lower_cp_above by lia. intros [E|[]]. subst d.
    apply lower_cp_above. lia.
Qed.

Lemma flat_map_fixed (f : char -> str) l :
  (forall d, In d l -> f d = [d]) -> flat_map f l = l.
Proof.
  induction l as [|x l IH]; intros H; simpl; auto.
  rewrite (H x) by now left. simpl. f_equal. apply IH. intros d Hd.
  apply H. now right.
Qed.

Lemma py_lower_settled s d : In d (py_lower s) -> lower_cp d = [d].
Proof.
  unfold py_lower. intros H. apply in_flat_map in H.
  destruct H as (c & _ & Hd). now apply lower_cp_settled in Hd.
Qed.

(** Lowercasing twice is lowercasing once. *)
Lemma py_lower_idem s : py_lower (py_lower s) = py_lower s.
Proof.
  unfold py_lower at 1. apply flat_map_fixed. apply py_lower_settled.
Qed.

(** Lowercasing leaves a lowercased, trimmed text as it is. *)
Lemma py_lower_strip_lower s :
  py_lower (strip (py_lower s)) = strip (py_lower s).
Proof.
  unfold py_lower at 1. apply flat_map_fixed. intros d Hd.
  apply in_strip in Hd. now apply py_lower_settled in Hd.
Qed.

(** ** Further properties of [normalize_unit] and [generate_reply] *)

Lemma dict_get_in {V} (d : list (str * V)) k v :
  dict_get d k = Some v -> exists k', In (k', v) d.
Proof.
  unfold dict_get.
  destruct (find (fun e => str_eqb (fst e) k) d) as [[k' v']|] eqn:E;
    [|discriminate].
  intros H. inversion H; subst. apply find_some in E. now exists k'.
Qed.

(** Every value of the unit table is its own trimmed form and a key of the
    table, mapped to itself. *)
Lemma unit_values_fixed :
  forallb (fun e => str_eqb (strip (snd e)) (snd e)
                    && match dict_get UNIT_MAPPINGS (snd e) with
                       | Some v => str_eqb v (snd e)
                       | None => false
                       end)
          UNIT_MAPPINGS = true.
Proof. vm_compute. reflexivity. Qed.

Lemma unit_values_lower :
  forall k v, In (k, v) UNIT_MAPPINGS -> py_lower v = v.
Proof.
  assert (H : forallb (fun e => str_eqb (py_lower (snd e)) (snd e))
                      UNIT_MAPPINGS = true) by (vm_compute; reflexivity).
  rewrite forallb_forall in H. intros k v Hin.
  now apply str_eqb_eq, (H (k, v)).
Qed.

(** X6.  Normalizing a unit twice is normalizing it once, for every text
    and every lowercasing that, as [str.lower] does, leaves a lowercased,
    trimmed text and the canonical units of the table as they are: a
    canonical unit is a key of the table mapped to itself, and a text the
    table does not know comes back lowercased and trimmed, which a second
    pass leaves alone. *)
Theorem normalize_unit_idempotent lower unit_text :
  (forall s, lower (strip (lower s)) = strip (lower s)) ->
  (forall k v, In (k, v) UNIT_MAPPINGS -> lower v = v) ->
  normalize_unit lower (normalize_unit lower unit_text)
  = normalize_unit lower unit_text.
Proof.
  intros Hl Hv. unfold normalize_unit at 2 3.
  destruct (dict_get UNIT_MAPPINGS (strip (lower unit_text))) as [v|] eqn:E.
  - apply dict_get_in in E. destruct E as [k Hin].
    pose proof unit_values_fixed as H. rewrite forallb_forall in H.
    pose proof (H _ Hin) as Hc. cbn [snd] in Hc.
    apply andb_prop in Hc. destruct Hc as [Hs Hg].
    apply str_eqb_eq in Hs.
    unfold normalize_unit. rewrite (Hv k v Hin), Hs.
    destruct (dict_get UNIT_MAPPINGS v) as [v'|]; [|discriminate].
    now apply str_eqb_eq in Hg.
  - unfold normalize_unit. rewrite Hl, strip_idem, E. reflexivity.
Qed.

Lemma normalize_unit_idempotent_witness :
  normalize_unit py_lower (normalize_unit py_lower (u " Sack "))
  = normalize_unit py_lower (u " Sack ")
  /\ normalize_unit py_lower (normalize_unit py_lower (u "Kilo"))
     = normalize_unit py_lower (u "Kilo").
Proof.
  split.
  - exact (normalize_unit_idempotent py_lower (u " Sack ")
                                     py_lower_strip_lower unit_values_lower).
  - exact (normalize_unit_idempotent py_lower (u "Kilo")
                                     py_lower_strip_lower unit_values_lower).
Defined.

(** X7.  The reply is the apology exactly when the order has no items. *)
Theorem apology_iff_no_items title float_str order customer_name :
  generate_reply title float_str (Some order) customer_name
  = u "Sorry " ++ customer_name
      ++ u ", I couldn't understand your order. Please try again."
  <-> items order = [].
Proof.
  split.
  - intros H. unfold generate_reply in H.
    destruct (items order) as [|item rest]; auto. exfalso.
    apply (f_equal (hd 0%N)) in H. vm_compute in H. discriminate.
  - intros H. unfold generate_reply. now rewrite H.
Qed.

Lemma apology_iff_no_items_witness :
  items (parse (u "namaste ji")) = []
  /\ generate_reply (fun s => s) (fun _ => []) (Some (parse (u "namaste ji")))
                    (u "Rajesh")
     = u "Sorry " ++ u "Rajesh"
         ++ u ", I couldn't understand your order. Please try again.".
Proof.
  assert (H : items (parse (u "namaste ji")) = []) by (vm_compute; reflexivity).
  split; [exact H|].
  exact (proj2 (apology_iff_no_items (fun s => s) (fun _ => [])
                                     (parse (u "namaste ji")) (u "Rajesh")) H).
Defined.

Lemma summary_items_nth title float_str its :
  forall idx i item,
    nth_error its i = Some item ->
    nth_error (summary_items title float_str idx its) i
    = Some (nat_str (idx + i) ++ u ". " ++ float_str (quantity item) ++ u " "
              ++ unit item ++ u " " ++ title (name item)).
Proof.
  induction its as [|it its IH]; intros idx i item H.
  - destruct i; discriminate.
  - destruct i as [|i]; simpl in *.
    + inversion H; subst. now rewrite Nat.add_0_r.
    + rewrite (IH (S idx) i item H). now rewrite Nat.add_succ_r.
Qed.

Lemma summary_items_length title float_str its :
  forall idx, length (summary_items title float_str idx its) = length its.
Proof. induction its as [|it its IH]; intros idx; simpl; auto. Qed.

(** X8.  For an order with items the reply is a greeting, then one line per
    item in the order of the items, the line of the item at position [i]
    (from 0) carrying the number [i + 1], its quantity, its unit and its
    titled name, then the two closing lines, all joined by newlines. *)
Theorem reply_lines title float_str order customer_name :
  items order <> [] ->
  exists lines,
    generate_reply title float_str (Some order) customer_name
    = join [10%N]
           ((u "Thank you " ++ customer_name ++ u "! Your order:")
              :: lines
              ++ [ [10%N] ++ u "Your order is confirmed! ✅";
                   u "We'll prepare it right away." ])
    /\ length lines = length (items order)
    /\ forall i item,
        nth_error (items order) i = Some item ->
        nth_error lines i
        = Some (nat_str (S i) ++ u ". " ++ float_str (quantity item) ++ u " "
                  ++ unit item ++ u " " ++ title (name item)).
Proof.
  intros H. exists (summary_items title float_str 1 (items order)).
  splits.
  - unfold generate_reply. destruct (items order); [congruence|reflexivity].
  - apply summary_items_length.
  - intros i item Hi. now apply summary_items_nth.
Qed.

Lemma reply_lines_witness :
  items (parse (u "2 kg atta")) <> []
  /\ exists lines,
      generate_reply (fun s => s) (fun _ => u "2.0")
                     (Some (parse (u "2 kg atta"))) (u "Rajesh")
      = join [10%N]
             ((u "Thank you " ++ u "Rajesh" ++ u "! Your order:")
                :: lines
                ++ [ [10%N] ++ u "Your order is confirmed! ✅";
                     u "We'll prepare it right away." ])
      /\ length lines = length (items (parse (u "2 kg atta")))
      /\ forall i item,
          nth_error (items (parse (u "2 kg atta"))) i = Some item ->
          nth_error lines i
          = Some (nat_str (S i) ++ u ". " ++ u "2.0" ++ u " "
                    ++ unit item ++ u " " ++ name item).
Proof.
  assert (H : items (parse (u "2 kg atta")) <> [])
    by (vm_compute; discriminate).
  split; [exact H|].
  exact (reply_lines (fun s => s) (fun _ => u "2.0") (parse (u "2 kg atta"))
                     (u "Rajesh") H).
Defined.

(** ** The shape of the captured pieces *)

Lemma plus_class_last p t :
  lang (Plus (Class p)) t ->
  forallb p t = true /\ exists t' y, t = t' ++ [y] /\ p y = true.
Proof.
  intros H. apply plus_class in H. destruct H as (x & r & E & Hx & Hr).
  assert (Hall : forallb p t = true) by (subst t; simpl; now rewrite Hx).
  split; auto.
  destruct (exists_last (l := t)) as (t' & y & Et); [subst t; discriminate|].
  exists t', y. split; auto.
  rewrite forallb_forall in Hall. apply Hall. rewrite Et.
  apply in_or_app. right. now left.
Qed.

Lemma forallb_weaken (p q : char -> bool) l :
  (forall c, p c = true -> q c = true) ->
  forallb p l = true -> forallb q l = true.
Proof. apply forallb_impl. Qed.

Lemma product_tail_shape r :
  lang (Star (Cat (Plus (Class isspace)) (Plus (Class isword)))) r ->
  forallb (fun c => isword c || isspace c) r = true
  /\ (r = [] \/ exists r' y, r = r' ++ [y] /\ isword y = true).
Proof.
  intros H.
  remember (Star (Cat (Plus (Class isspace)) (Plus (Class isword)))) as e eqn:He.
  induction H; try discriminate; inversion He; subst; clear He.
  - split; auto.
  - match goal with
    | H : lang (Cat _ _) _ |- _ =>
      inversion H as [|a b w1 w2 Hw1 Hw2| | | | | |]; subst
    end.
    apply plus_class_last in Hw1. destruct Hw1 as [Hs _].
    apply plus_class_last in Hw2. destruct Hw2 as (Hw & w' & y & Ew & Hy).
    destruct (IHlang2 eq_refl) as [Hall Hlast]. split.
    + rewrite !forallb_app. rewrite Hall.
      rewrite (forallb_weaken isspace (fun c => isword c || isspace c) w1); auto.
      * rewrite (forallb_weaken isword (fun c => isword c || isspace c) w2); auto.
        intros c Hc. now rewrite Hc.
      * intros c Hc. rewrite Hc. apply orb_true_r.
    + right. destruct Hlast as [E|(r' & z & E & Hz)].
      * subst t. rewrite app_nil_r. exists (w1 ++ w'), y.
        rewrite Ew, app_assoc. auto.
      * exists ((w1 ++ w2) ++ r'), z. rewrite E, app_assoc. auto.
Qed.

Lemma product_shape p :
  lang product_re p ->
  (exists x r, p = x :: r /\ isword x = true)
  /\ (exists r' y, p = r' ++ [y] /\ isword y = true)
  /\ forallb (fun c => isword c || isspace c) p = true.
Proof.
  intros H. inversion H as [|a b w t Hw Ht| | | | | |]; subst.
  pose proof (plus_class _ _ Hw) as (x & w0 & Ex & Hx & _).
  apply plus_class_last in Hw. destruct Hw as (Hall & w' & y & Ew & Hy).
  apply product_tail_shape in Ht. destruct Ht as [Htall Htlast].
  splits.
  - exists x, (w0 ++ t). now rewrite Ex.
  - destruct Htlast as [E|(r' & z & E & Hz)].
    + subst t. rewrite app_nil_r. now exists w', y.
    + exists (w ++ r'), z. rewrite E, app_assoc. auto.
  - rewrite forallb_app, Htall.
    rewrite (forallb_weaken isword (fun c => isword c || isspace c) w); auto.
    intros c Hc. now rewrite Hc.
Qed.

Lemma quantity_chars q :
  lang quantity_re q -> forallb (fun c => isdecimal c || isdot c) q = true.
Proof.
  intros H. inversion H as [|a b s t Hs Ht| | | | | |]; subst.
  apply plus_class_last in Hs. destruct Hs as [Hs _].
  rewrite forallb_app.
  rewrite (forallb_weaken isdecimal (fun c => isdecimal c || isdot c) s); auto;
    [|intros c Hc; now rewrite Hc].
  inversion Ht as [| | | | |a|a t' Ht'|]; subst; auto.
  inversion Ht' as [|a b s1 t1 Hdot Hfrac| | | | | |]; subst.
  inversion Hdot as [p' y Hy| | | | | | |]; subst.
  apply plus_class_last in Hfrac. destruct Hfrac as [Hf _].
  simpl. rewrite Hy, orb_true_r. simpl.
  apply (forallb_weaken isdecimal); auto. intros c Hc. now rewrite Hc.
Qed.

Lemma match_pieces msg q un p :
  In (q, un, p) (findall pattern msg) ->
  ((exists x q', q = x :: q' /\ isdecimal x = true)
   /\ forallb (fun c => isdecimal c || isdot c) q = true)
  /\ forallb isword un = true
  /\ ((exists x r, p = x :: r /\ isword x = true)
      /\ (exists r' y, p = r' ++ [y] /\ isword y = true)
      /\ forallb (fun c => isword c || isspace c) p = true).
Proof.
  intros H.
  destruct (findall_pattern msg q un p H) as ((Hq & _) & Hu & (Hp & _)).
  splits.
  - now apply quantity_head.
  - now apply quantity_chars.
  - destruct Hu as [E|[Hu _]]; [now subst un|].
    now apply plus_class_last in Hu.
  - now apply product_shape.
  - now apply product_shape.
  - now apply product_shape.
Qed.

(** X9.  In every match the quantity text begins with a decimal digit and
    holds only digits and dots; the unit text holds only letters; the product
    phrase begins and ends with a letter and holds only letters and blanks
    (no digit, no punctuation). *)
Theorem match_shape msg q un p :
  In (q, un, p) (findall pattern msg) ->
  ((exists x q', q = x :: q' /\ isdecimal x = true)
   /\ forallb (fun c => isdecimal c || isdot c) q = true)
  /\ forallb isword un = true
  /\ ((exists x r, p = x :: r /\ isword x = true)
      /\ (exists r' y, p = r' ++ [y] /\ isword y = true)
      /\ forallb (fun c => isword c || isspace c) p = true).
Proof. apply match_pieces. Qed.

Lemma match_shape_witness :
  In (u "1.5", u "kg", u "basmati rice")
     (findall pattern (u "1.5kg basmati rice, 2 soap"))
  /\ ((exists x q', u "1.5" = x :: q' /\ isdecimal x = true)
      /\ forallb (fun c => isdecimal c || isdot c) (u "1.5") = true)
  /\ forallb isword (u "kg") = true
  /\ ((exists x r, u "basmati rice" = x :: r /\ isword x = true)
      /\ (exists r' y, u "basmati rice" = r' ++ [y] /\ isword y = true)
      /\ forallb (fun c => isword c || isspace c) (u "basmati rice") = true).
Proof.
  assert (H : In (u "1.5", u "kg", u "basmati rice")
                 (findall pattern (u "1.5kg basmati rice, 2 soap"))).
  { vm_compute. left. reflexivity. }
  split; [exact H|].
  exact (match_shape _ _ _ _ H).
Defined.

(** ** Names handed on by the parser *)

Lemma isword_below c : isword c = true -> (c < 8491)%N.
Proof.
  unfold isword, in_range. intros H.
  repeat (apply orb_prop in H; destruct H as [H|H]);
    try (apply andb_prop in H; destruct H as [H1 H2];
         apply N.leb_le in H1; apply N.leb_le in H2; lia);
    apply N.eqb_eq in H; lia.
Qed.

Lemma word_lower_ends_upto :
  forallb (fun c => implb (isword c) (lower_ends_ok c)) (code_points_upto 8491)
  = true.
Proof. vm_compute. reflexivity. Qed.

(** The lowercase form of a letter of the pattern starts and ends with
    something that is not a blank. *)
Lemma word_lower_ends c :
  isword c = true ->
  (exists h tl, lower_cp c = h :: tl /\ isspace h = false)
  /\ (exists w z, lower_cp c = w ++ [z] /\ isspace z = false).
Proof.
  intros Hc. pose proof word_lower_ends_upto as H.
  rewrite forallb_forall in H.
  specialize (H c (in_code_points_upto c 8491 (isword_below c Hc))).
  rewrite Hc in H. simpl in H. unfold lower_ends_ok in H.
  destruct (lower_cp c) as [|h tl] eqn:E; [discriminate|].
  apply andb_prop in H. destruct H as [Hh Hz].
  apply negb_true_iff in Hh. apply negb_true_iff in Hz. split.
  - now exists h, tl.
  - destruct (exists_last (l := h :: tl)) as (w & z & Ew); [discriminate|].
    exists w, z. split; auto. rewrite Ew in Hz. now rewrite last_last in Hz.
Qed.

(** Lowercasing a text that begins and ends with a letter gives a text that
    is its own trimmed form, and is not empty. *)
Lemma py_lower_word_ends x r r' y :
  isword x = true -> isword y = true -> x :: r = r' ++ [y] ->
  py_lower (x :: r) <> [] /\ strip (py_lower (x :: r)) = py_lower (x :: r).
Proof.
  intros Hx Hy E.
  destruct (word_lower_ends x Hx) as ((h & tl & Eh & Hh) & _).
  destruct (word_lower_ends y Hy) as (_ & (w & z & Ez & Hz)).
  assert (E1 : py_lower (x :: r) = h :: (tl ++ py_lower r)).
  { unfold py_lower. simpl. now rewrite Eh. }
  assert (E2 : py_lower (x :: r) = (py_lower r' ++ w) ++ [z]).
  { rewrite E. unfold py_lower. rewrite flat_map_app. simpl.
    now rewrite Ez, app_nil_r, app_assoc. }
  split.
  - rewrite E1. discriminate.
  - rewrite E1. apply (strip_word_ends h _ (py_lower r' ++ w) z); auto.
    now rewrite <- E1, E2.
Qed.

Lemma catalog_names_trimmed :
  forallb (fun n => negb (is_empty n) && str_eqb (strip n) n) known_products
  = true.
Proof. vm_compute. reflexivity. Qed.

Lemma matched_name_trimmed x r r' y :
  isword x = true -> isword y = true -> x :: r = r' ++ [y] ->
  match_product (x :: r) 70 <> []
  /\ strip (match_product (x :: r) 70) = match_product (x :: r) 70.
Proof.
  intros Hx Hy E. unfold match_product.
  destruct (fuzzy_match_cases py_lower fuzz_ratio (x :: r) 70)
    as [[Hin _]|[Hl _]].
  - pose proof catalog_names_trimmed as H. rewrite forallb_forall in H.
    apply H in Hin. apply andb_prop in Hin. destruct Hin as [Hn Hs].
    split; [|now apply str_eqb_eq].
    intros E0. rewrite E0 in Hn. discriminate.
  - rewrite Hl. now apply (py_lower_word_ends x r r' y).
Qed.

(** X10.  The name of every item the parser returns is not empty and
    carries no blank at either end, whether it is a catalog name or a
    product phrase passed through. *)
Theorem parsed_names_trimmed msg item :
  In item (items (parse msg)) ->
  name item <> [] /\ strip (name item) = name item.
Proof.
  intros Hin. unfold parse in Hin. simpl in Hin.
  apply in_parse_matches in Hin. destruct Hin as ([[q un] p] & Hin & Hm).
  destruct (match_pieces msg q un p Hin)
    as (_ & Hun & ((x & r & Ep & Hx) & (r' & y & Ep' & Hy) & _)).
  unfold parse_match in Hm. destruct (py_float q) as [v|]; [|discriminate].
  destruct (is_empty un || existsb (str_eqb (py_lower un)) unit_allowlist)
           eqn:Ec.
  - inversion Hm. cbn [name]. subst p.
    now apply (matched_name_trimmed x r r' y).
  - inversion Hm. cbn [name].
    destruct un as [|a un]; [discriminate|].
    cbn [forallb] in Hun. apply andb_prop in Hun. destruct Hun as [Ha _].
    change ((a :: un) ++ u " " ++ p) with (a :: (un ++ u " " ++ p)).
    apply (matched_name_trimmed a _ (a :: un ++ u " " ++ r') y); auto.
    rewrite Ep'. simpl. now rewrite <- !app_assoc.
Qed.

Lemma parsed_names_trimmed_witness :
  In (mkItem (u "milk chahiye") 1 (u "litre") (u "1 litre milk chahiye"))
     (items (parse (u "2 kg atta aur 1 litre milk chahiye")))
  /\ u "milk chahiye" <> []
  /\ strip (u "milk chahiye") = u "milk chahiye".
Proof.
  assert (H : In (mkItem (u "milk chahiye") 1 (u "litre") (u "1 litre milk chahiye"))
                 (items (parse (u "2 kg atta aur 1 litre milk chahiye")))).
  { vm_compute. right. left. reflexivity. }
  split; [exact H|].
  exact (parsed_names_trimmed _ _ H).
Defined.

Lemma catalog_names_fixed :
  forallb (fun n => str_eqb (match_product n 70) n) known_products = true.
Proof. vm_compute. reflexivity. Qed.

Lemma alias_pairs_resolve :
  forallb (fun e => str_eqb (match_product (snd e) 70) (fst e))
          (alias_pairs PRODUCT_ALIASES) = true.
Proof. vm_compute. reflexivity. Qed.

(** The matcher sees its input through [lower] alone. *)
Lemma fuzzy_match_lower_eq lower lower' ratio raw t :
  lower raw = lower' raw ->
  fuzzy_match_product lower ratio raw t = fuzzy_match_product lower' ratio raw t.
Proof. intros E. unfold fuzzy_match_product. now rewrite E. Qed.

Lemma catalog_names_lower :
  forall n, In n known_products -> py_lower n = n.
Proof.
  assert (H : forallb (fun n => str_eqb (py_lower n) n) known_products = true)
    by (vm_compute; reflexivity).
  rewrite forallb_forall in H. intros n Hin. now apply str_eqb_eq, H.
Qed.

(** X11.  Matching a matched name again changes nothing, at the default
    threshold, for every input and every lowercasing that, as [str.lower]
    does, is idempotent and leaves the catalog names as they are: a catalog
    name resolves to itself, and an input that was passed through is passed
    through again unchanged. *)
Theorem match_product_idempotent lower raw :
  (forall s, lower (lower s) = lower s) ->
  (forall n, In n known_products -> lower n = n) ->
  fuzzy_match_product lower fuzz_ratio
                      (fuzzy_match_product lower fuzz_ratio raw 70) 70
  = fuzzy_match_product lower fuzz_ratio raw 70.
Proof.
  intros Hi Hk.
  destruct (fuzzy_match_cases lower fuzz_ratio raw 70) as [[Hin _]|[Hl Hn]].
  - rewrite (fuzzy_match_lower_eq lower py_lower).
    + pose proof catalog_names_fixed as H. rewrite forallb_forall in H.
      apply H in Hin. now apply str_eqb_eq in Hin.
    + rewrite (Hk _ Hin). symmetry. now apply catalog_names_lower.
  - rewrite Hl.
    destruct (fuzzy_match_cases lower fuzz_ratio (lower raw) 70)
      as [[_ Hf]|[Hl' _]].
    + rewrite Hi in Hf. congruence.
    + rewrite Hl'. apply Hi.
Qed.

Lemma match_product_idempotent_witness :
  match_product (match_product (u " Xyzzy123") 70) 70
  = match_product (u " Xyzzy123") 70
  /\ match_product (match_product (u "Doodh") 70) 70
     = match_product (u "Doodh") 70.
Proof.
  split.
  - exact (match_product_idempotent py_lower (u " Xyzzy123")
                                    py_lower_idem catalog_names_lower).
  - exact (match_product_idempotent py_lower (u "Doodh")
                                    py_lower_idem catalog_names_lower).
Defined.

(** X12.  At the default threshold every alias of the table resolves to the
    canonical name it is listed under, and every canonical name to itself:
    no alias is captured by an entry that comes earlier in the table. *)
Theorem table_resolves standard_name alias :
  In (standard_name, alias) (alias_pairs PRODUCT_ALIASES) ->
  match_product alias 70 = standard_name
  /\ match_product standard_name 70 = standard_name.
Proof.
  intros Hin. split.
  - pose proof alias_pairs_resolve as H. rewrite forallb_forall in H.
    apply (H _) in Hin. now apply str_eqb_eq in Hin.
  - pose proof catalog_names_fixed as H. rewrite forallb_forall in H.
    apply str_eqb_eq, H. unfold alias_pairs in Hin.
    apply in_flat_map in Hin. destruct Hin as ([n al] & He & Hp).
    apply in_map_iff in Hp. destruct Hp as (a & Ea & _).
    inversion Ea; subst. unfold known_products.
    now apply (in_map fst) in He.
Qed.

Lemma table_resolves_witness :
  In (u "milk", u "दूध") (alias_pairs PRODUCT_ALIASES)
  /\ match_product (u "दूध") 70 = u "milk"
  /\ match_product (u "milk") 70 = u "milk".
Proof.
  assert (H : In (u "milk", u "दूध") (alias_pairs PRODUCT_ALIASES)).
  { vm_compute. do 4 right. left. reflexivity. }
  split; [exact H|].
  exact (table_resolves _ _ H).
Defined.

(** ** The inventory database *)

Lemma sql_lower_idem s : Db.sql_lower (Db.sql_lower s) = Db.sql_lower s.
Proof.
  unfold Db.sql_lower. rewrite map_map. apply map_ext. intros c.
  destruct (in_range 65 90 c) eqn:E; [|now rewrite E].
  unfold in_range in *. apply andb_prop in E. destruct E as [E1 E2].
  apply N.leb_le in E1. apply N.leb_le in E2.
  assert (H : ((c + 32 <=? 90) = false)%N) by (apply N.leb_gt; lia).
  now rewrite H, andb_false_r.
Qed.

Lemma str_eqb_refl s : str_eqb s s = true.
Proof. unfold str_eqb. destruct (list_eq_dec N.eq_dec s s); congruence. Qed.

Lemma str_eqb_neq a b : a <> b -> str_eqb a b = false.
Proof. unfold str_eqb. destruct (list_eq_dec N.eq_dec a b); congruence. Qed.

Lemma existsb_name_false rows n :
  existsb (fun r => str_eqb (Db.name r) n) rows = false ->
  ~ In n (map Db.name rows).
Proof.
  intros H Hin. apply in_map_iff in Hin. destruct Hin as (r & E & Hr).
  assert (Ht : existsb (fun r => str_eqb (Db.name r) n) rows = true).
  { apply existsb_exists. exists r. split; auto. rewrite E. apply str_eqb_refl. }
  congruence.
Qed.

Lemma find_all_false {A} (f : A -> bool) l :
  (forall x, In x l -> f x = false) -> find f l = None.
Proof.
  induction l as [|a l IH]; simpl; auto. intros H.
  rewrite (H a) by now left. apply IH. intros x Hx. apply H. now right.
Qed.

Lemma NoDup_snoc {A} (l : list A) x : NoDup l -> ~ In x l -> NoDup (l ++ [x]).
Proof.
  intros Hl Hx. rewrite <- (rev_involutive (l ++ [x])). apply NoDup_rev.
  rewrite rev_app_distr. simpl. constructor.
  - now rewrite <- in_rev.
  - now apply NoDup_rev.
Qed.

(** Under [wf] a lookup by name can only find the row that bears the
    name. *)
Lemma find_by_name_none rows n :
  Forall (fun r => Db.sql_lower (Db.name r) = Db.name r) rows ->
  ~ In (Db.sql_lower n) (map Db.name rows) ->
  find (fun r => str_eqb (Db.sql_lower (Db.name r)) (Db.sql_lower n)) rows = None.
Proof.
  intros Hl Hn. induction rows as [|r rows IH]; simpl; auto.
  inversion Hl; subst.
  rewrite str_eqb_neq.
  - apply IH; auto. intros Hin. apply Hn. now right.
  - intros E. apply Hn. left. congruence.
Qed.

(** X13.  An item that has been added is found by its name: when Python and
    SQLite agree on the lowercase form of the name (as they do for every
    ASCII name), [add_item] followed by [get_item_by_name] returns the row
    just stored, under the id [add_item] returned, one above the counter;
    and the state stays well formed. *)
Theorem add_then_get lower db item_name brand unit stock price gst_rate
        category item_id db' :
  Db.wf db ->
  lower item_name = Db.sql_lower item_name ->
  Db.add_item lower db item_name brand unit stock price gst_rate category
  = Some (item_id, db') ->
  Db.get_item_by_name db' item_name
  = Some (Db.mkRow item_id (lower item_name) brand unit stock price gst_rate
                   category)
  /\ Db.get_item_by_id db' item_id
     = Some (Db.mkRow item_id (lower item_name) brand unit stock price gst_rate
                      category)
  /\ item_id = (Db.items_seq db + 1)%Z
  /\ Db.wf db'.
Proof.
  intros (Hid & Hnm & Hseq & Hlow) Hl H. unfold Db.add_item in H.
  destruct (existsb (fun r => str_eqb (Db.name r) (lower item_name))
                    (Db.items db)) eqn:E; [discriminate|].
  inversion H; subst; clear H. apply existsb_name_false in E.
  splits; auto.
  - unfold Db.get_item_by_name. cbn [Db.items]. rewrite find_app.
    rewrite find_by_name_none; auto; [|now rewrite <- Hl].
    simpl. rewrite Hl, sql_lower_idem, str_eqb_refl. reflexivity.
  - unfold Db.get_item_by_id. cbn [Db.items]. rewrite find_app.
    rewrite find_all_false.
    + simpl. now rewrite Z.eqb_refl.
    + intros r Hr. rewrite Forall_forall in Hseq. apply Hseq in Hr.
      apply Z.eqb_neq. lia.
  - unfold Db.wf. cbn [Db.items Db.items_seq]. rewrite !map_app. simpl.
    splits.
    + apply NoDup_snoc; auto. intros Hin. apply in_map_iff in Hin.
      destruct Hin as (r & Er & Hr). rewrite Forall_forall in Hseq.
      apply Hseq in Hr. lia.
    + now apply NoDup_snoc.
    + apply Forall_app. split.
      * eapply Forall_impl; [|exact Hseq]. simpl. intros r Hr. lia.
      * constructor; [simpl; lia|constructor].
    + apply Forall_app. split; auto.
      constructor; [|constructor]. simpl. now rewrite Hl, sql_lower_idem.
Qed.

Lemma add_then_get_witness :
  Db.wf Db.init_db
  /\ py_lower (u "Atta") = Db.sql_lower (u "Atta")
  /\ Db.add_item py_lower Db.init_db (u "Atta") (u "Aashirvaad") (u "kg") 50 45 5
                 (Some (u "groceries"))
     = Some (1%Z,
             Db.mkDb [Db.mkRow 1 (u "atta") (u "Aashirvaad") (u "kg") 50 45 5
                               (Some (u "groceries"))] 1 [] 0)
  /\ Db.get_item_by_name
       (Db.mkDb [Db.mkRow 1 (u "atta") (u "Aashirvaad") (u "kg") 50 45 5
                          (Some (u "groceries"))] 1 [] 0)
       (u "Atta")
     = Some (Db.mkRow 1 (py_lower (u "Atta")) (u "Aashirvaad") (u "kg") 50 45 5
                      (Some (u "groceries"))).
Proof.
  assert (H1 : Db.wf Db.init_db).
  { unfold Db.wf. simpl. splits; constructor. }
  assert (H2 : py_lower (u "Atta") = Db.sql_lower (u "Atta"))
    by (vm_compute; reflexivity).
  assert (H3 : Db.add_item py_lower Db.init_db (u "Atta") (u "Aashirvaad") (u "kg")
                           50 45 5 (Some (u "groceries"))
               = Some (1%Z,
                       Db.mkDb [Db.mkRow 1 (u "atta") (u "Aashirvaad") (u "kg")
                                         50 45 5 (Some (u "groceries"))] 1 [] 0))
    by (vm_compute; reflexivity).
  split; [exact H1|]. split; [exact H2|]. split; [exact H3|].
  exact (proj1 (add_then_get py_lower _ _ _ _ _ _ _ _ _ _ H1 H2 H3)).
Defined.

(** A lookup returns a row of the table whose name is the one asked for, up
    to the case of ASCII letters. *)
Lemma get_item_by_name_some db n item :
  Db.get_item_by_name db n = Some item ->
  In item (Db.items db) /\ Db.sql_lower (Db.name item) = Db.sql_lower n.
Proof.
  unfold Db.get_item_by_name. intros H. apply find_some in H.
  destruct H as [Hin He]. split; auto. now apply str_eqb_eq.
Qed.

Lemma map_id_set_stock i q rows :
  map Db.id (map (Db.set_stock i q) rows) = map Db.id rows.
Proof.
  rewrite map_map. apply map_ext. intros r. unfold Db.set_stock.
  now destruct (Db.id r =? i)%Z.
Qed.

Lemma map_name_set_stock i q rows :
  map Db.name (map (Db.set_stock i q) rows) = map Db.name rows.
Proof.
  rewrite map_map. apply map_ext. intros r. unfold Db.set_stock.
  now destruct (Db.id r =? i)%Z.
Qed.

Lemma NoDup_map_filter {A B} (f : A -> B) (p : A -> bool) l :
  NoDup (map f l) -> NoDup (map f (filter p l)).
Proof.
  induction l as [|x l IH]; simpl; auto. intros H. inversion H; subst.
  destruct (p x); simpl; auto. constructor; auto.
  intros Hin. apply in_map_iff in Hin. destruct Hin as (y & Ey & Hy).
  apply filter_In in Hy. destruct Hy as [Hy _].
  match goal with H : ~ In _ _ |- _ => apply H end.
  rewrite <- Ey. now apply in_map.
Qed.

Lemma Forall_filter {A} (P : A -> Prop) (p : A -> bool) l :
  Forall P l -> Forall P (filter p l).
Proof.
  intros H. apply Forall_forall. intros x Hx. apply filter_In in Hx.
  rewrite Forall_forall in H. apply H. tauto.
Qed.

Lemma wf_init_db : Db.wf Db.init_db.
Proof. unfold Db.wf. simpl. splits; constructor. Qed.

Lemma wf_update_stock fadd db item_name change reason :
  Db.wf db -> Db.wf (snd (Db.update_stock fadd db item_name change reason)).
Proof.
  intros (Hid & Hnm & Hseq & Hlow). unfold Db.update_stock.
  destruct (Db.get_item_by_name db item_name) as [item|];
    [|simpl; unfold Db.wf; auto].
  destruct (negb (Qle_bool 0 (fadd (Db.stock item) change)));
    [simpl; unfold Db.wf; auto|].
  unfold Db.wf. cbn [snd Db.items Db.items_seq].
  rewrite map_id_set_stock, map_name_set_stock. splits; auto.
  - apply Forall_forall. intros r Hr. apply in_map_iff in Hr.
    destruct Hr as (r0 & E & Hr0). rewrite Forall_forall in Hseq.
    apply Hseq in Hr0. subst r. unfold Db.set_stock.
    now destruct (Db.id r0 =? Db.id item)%Z.
  - apply Forall_forall. intros r Hr. apply in_map_iff in Hr.
    destruct Hr as (r0 & E & Hr0). rewrite Forall_forall in Hlow.
    apply Hlow in Hr0. subst r. unfold Db.set_stock.
    now destruct (Db.id r0 =? Db.id item)%Z.
Qed.

Lemma wf_delete_item db item_name :
  Db.wf db -> Db.wf (snd (Db.delete_item db item_name)).
Proof.
  intros (Hid & Hnm & Hseq & Hlow). unfold Db.delete_item.
  destruct (Db.get_item_by_name db item_name) as [item|];
    [|simpl; unfold Db.wf; auto].
  unfold Db.wf. cbn [snd Db.items Db.items_seq].
  splits; auto using NoDup_map_filter, Forall_filter.
Qed.

(** X14.  The state stays well formed: it is so after [init_db], and
    [update_stock] and [delete_item] keep ids and names unique, ids within
    the counter and names in SQLite's lowercase. *)
Theorem wf_kept fadd db item_name change reason :
  Db.wf Db.init_db
  /\ (Db.wf db ->
      Db.wf (snd (Db.update_stock fadd db item_name change reason))
      /\ Db.wf (snd (Db.delete_item db item_name))).
Proof.
  split; [apply wf_init_db|]. intros H.
  split; [now apply wf_update_stock|now apply wf_delete_item].
Qed.

Lemma wf_kept_witness :
  Db.wf (Db.mkDb [Db.mkRow 1 (u "atta") (u "Aashirvaad") (u "kg") 50 45 5 None]
                 1 [] 0)
  /\ Db.wf (snd (Db.update_stock
                   Qplus (Db.mkDb [Db.mkRow 1 (u "atta") (u "Aashirvaad") (u "kg")
                                      50 45 5 None] 1 [] 0)
                   (u "ATTA") (-2) (u "order"))).
Proof.
  assert (H : Db.wf (Db.mkDb [Db.mkRow 1 (u "atta") (u "Aashirvaad") (u "kg")
                                       50 45 5 None] 1 [] 0)).
  { unfold Db.wf. simpl. splits; repeat constructor; auto; simpl; lia. }
  split; [exact H|].
  exact (proj1 (proj2 (wf_kept Qplus _ (u "ATTA") (-2) (u "order")) H)).
Defined.

Lemma find_map_set_stock i q n rows :
  find (fun r => str_eqb (Db.sql_lower (Db.name r)) n)
       (map (Db.set_stock i q) rows)
  = option_map (Db.set_stock i q)
               (find (fun r => str_eqb (Db.sql_lower (Db.name r)) n) rows).
Proof.
  induction rows as [|r rows IH]; simpl; auto.
  assert (E : Db.name (Db.set_stock i q r) = Db.name r).
  { unfold Db.set_stock. now destruct (Db.id r =? i)%Z. }
  rewrite E. now destruct (str_eqb (Db.sql_lower (Db.name r)) n).
Qed.

Lemma NoDup_map_inj {A B} (f : A -> B) l a b :
  NoDup (map f l) -> In a l -> In b l -> f a = f b -> a = b.
Proof.
  induction l as [|x l IH]; simpl; [tauto|]. intros H Ha Hb E.
  inversion H as [|y l' Hx Hl]; subst.
  destruct Ha as [Ha|Ha], Hb as [Hb|Hb]; subst; auto.
  - exfalso. apply Hx. rewrite E. now apply in_map.
  - exfalso. apply Hx. rewrite <- E. now apply in_map.
Qed.



Lemma Forall_map_set_stock (P : Db.Row -> Prop) i q rows :
  Forall P rows ->
  (forall r, P r -> Db.id r = i -> P (Db.set_stock i q r)) ->
  Forall P (map (Db.set_stock i q) rows).
Proof.
  intros H Hs. apply Forall_forall. intros r Hr. apply in_map_iff in Hr.
  destruct Hr as (r0 & E & Hr0). rewrite Forall_forall in H.
  specialize (H r0 Hr0). subst r.
  destruct (Z.eqb_spec (Db.id r0) i) as [Ei|Ei]; auto.
  unfold Db.set_stock. destruct (Z.eqb_spec (Db.id r0) i); [lia|auto].
Qed.

Lemma update_stock_nonneg fadd db item_name change reason :
  Forall (fun r => (0 <= Db.stock r)%Q) (Db.items db) ->
  Forall (fun r => (0 <= Db.stock r)%Q)
         (Db.items (snd (Db.update_stock fadd db item_name change reason))).
Proof.
  unfold Db.update_stock.
  destruct (Db.get_item_by_name db item_name) as [item|] eqn:Eg; auto.
  destruct (Qle_bool 0 (fadd (Db.stock item) change)) eqn:Eq; simpl; auto.
  intros H. apply Forall_map_set_stock; auto. intros r _ Hr.
  unfold Db.set_stock. rewrite Hr, Z.eqb_refl. simpl.
  now apply Qle_bool_iff.
Qed.

(** X16.  No stock update drives a stock below zero: when no stock is
    negative before [update_stock], none is after it; and an update that is
    refused, for an unknown item or for want of stock, changes nothing. *)
Theorem stock_never_negative fadd db item_name change reason :
  (Forall (fun r => (0 <= Db.stock r)%Q) (Db.items db) ->
   Forall (fun r => (0 <= Db.stock r)%Q)
          (Db.items (snd (Db.update_stock fadd db item_name change reason))))
  /\ (fst (Db.update_stock fadd db item_name change reason) = false ->
      snd (Db.update_stock fadd db item_name change reason) = db
      /\ (Db.get_item_by_name db item_name = None
          \/ exists item,
              Db.get_item_by_name db item_name = Some item
              /\ (fadd (Db.stock item) change < 0)%Q)).
Proof.
  split; [apply update_stock_nonneg|].
  unfold Db.update_stock.
  destruct (Db.get_item_by_name db item_name) as [item|] eqn:Eg.
  - destruct (Qle_bool 0 (fadd (Db.stock item) change)) eqn:Eq; simpl.
    + discriminate.
    + intros _. split; auto. right. exists item. split; auto.
      apply Qnot_le_lt. intros Hle. apply Qle_bool_iff in Hle. congruence.
  - simpl. auto.
Qed.

Lemma stock_never_negative_witness :
  fst (Db.update_stock
         Qplus (Db.mkDb [Db.mkRow 1 (u "atta") (u "Aashirvaad") (u "kg") 3 45 5 None]
                  1 [] 0)
         (u "atta") (-5) (u "order")) = false
  /\ snd (Db.update_stock
            Qplus (Db.mkDb [Db.mkRow 1 (u "atta") (u "Aashirvaad") (u "kg") 3 45 5 None]
                     1 [] 0)
            (u "atta") (-5) (u "order"))
     = Db.mkDb [Db.mkRow 1 (u "atta") (u "Aashirvaad") (u "kg") 3 45 5 None]
               1 [] 0.
Proof.
  assert (H : fst (Db.update_stock
                     Qplus (Db.mkDb [Db.mkRow 1 (u "atta") (u "Aashirvaad") (u "kg")
                                        3 45 5 None] 1 [] 0)
                     (u "atta") (-5) (u "order")) = false)
    by reflexivity.
  split; [exact H|].
  exact (proj1 (proj2 (stock_never_negative Qplus _ (u "atta") (-5) (u "order")) H)).
Defined.

(** X17.  After an item is deleted its name is no longer found, the history
    rows about it stay, and its id is not given out again: an item added
    afterwards gets an id above it. *)
Theorem delete_item_done lower db item_name db' :
  Db.wf db ->
  Db.delete_item db item_name = (true, db') ->
  exists item,
    Db.get_item_by_name db item_name = Some item
    /\ Db.get_item_by_name db' item_name = None
    /\ Db.stock_history db' = Db.stock_history db
    /\ forall n b un s p g c new_id db'',
        Db.add_item lower db' n b un s p g c = Some (new_id, db'') ->
        (Db.id item < new_id)%Z.
Proof.
  intros (Hid & Hnm & Hseq & Hlow) H. unfold Db.delete_item in H.
  destruct (Db.get_item_by_name db item_name) as [item|] eqn:Eg;
    [|discriminate].
  inversion H; subst; clear H. exists item.
  apply get_item_by_name_some in Eg. destruct Eg as [Hin He].
  splits; auto.
  - unfold Db.get_item_by_name. cbn [Db.items]. apply find_all_false.
    intros r Hr. apply filter_In in Hr. destruct Hr as [Hr Hne].
    apply str_eqb_neq. intros E.
    assert (En : Db.name r = Db.name item).
    { rewrite Forall_forall in Hlow.
      rewrite <- (Hlow r Hr), <- (Hlow item Hin). congruence. }
    assert (r = item) by (apply (NoDup_map_inj Db.name (Db.items db)); auto).
    subst r. rewrite Z.eqb_refl in Hne. discriminate.
  - intros n b un s p g c new_id db'' Ha. unfold Db.add_item in Ha.
    cbn [Db.items Db.items_seq] in Ha.
    destruct (existsb _ _); [discriminate|]. inversion Ha; subst.
    rewrite Forall_forall in Hseq. specialize (Hseq item Hin). lia.
Qed.

Lemma delete_item_done_witness :
  Db.wf (Db.mkDb [Db.mkRow 1 (u "atta") (u "Aashirvaad") (u "kg") 50 45 5 None]
                 1 [] 0)
  /\ Db.delete_item
       (Db.mkDb [Db.mkRow 1 (u "atta") (u "Aashirvaad") (u "kg") 50 45 5 None]
                1 [] 0) (u "ATTA")
     = (true, Db.mkDb [] 1 [] 0)
  /\ exists item,
      Db.get_item_by_name
        (Db.mkDb [Db.mkRow 1 (u "atta") (u "Aashirvaad") (u "kg") 50 45 5 None]
                 1 [] 0) (u "ATTA") = Some item
      /\ Db.get_item_by_name (Db.mkDb [] 1 [] 0) (u "ATTA") = None.
Proof.
  assert (H : Db.wf (Db.mkDb [Db.mkRow 1 (u "atta") (u "Aashirvaad") (u "kg")
                                       50 45 5 None] 1 [] 0)).
  { unfold Db.wf. simpl. splits; repeat constructor; auto; simpl; lia. }
  assert (H2 : Db.delete_item
                 (Db.mkDb [Db.mkRow 1 (u "atta") (u "Aashirvaad") (u "kg") 50 45 5
                                    None] 1 [] 0) (u "ATTA")
               = (true, Db.mkDb [] 1 [] 0)) by reflexivity.
  split; [exact H|]. split; [exact H2|].
  destruct (delete_item_done py_lower _ _ _ H H2) as (item & Hg & Hn & _).
  exists item. split; [exact Hg|exact Hn].
Defined.

(** ** [list_items] *)

Lemma str_leb_total a b : Db.str_leb a b = false -> Db.str_leb b a = true.
Proof.
  revert b. induction a as [|x a IH]; intros [|y b]; simpl; auto;
    try discriminate.
  destruct (N.ltb_spec x y); [discriminate|].
  destruct (N.ltb_spec y x); auto.
Qed.

Lemma insert_by_name_perm r rows :
  Permutation (Db.insert_by_name r rows) (r :: rows).
Proof.
  induction rows as [|r' rows IH]; simpl; auto.
  destruct (Db.str_leb (Db.name r) (Db.name r')); auto.
  rewrite IH. apply perm_swap.
Qed.

Lemma order_by_name_perm rows : Permutation (Db.order_by_name rows) rows.
Proof.
  induction rows as [|r rows IH]; simpl; auto.
  rewrite insert_by_name_perm. now constructor.
Qed.

Lemma insert_by_name_sorted r rows :
  Sorted (fun a b => Db.str_leb (Db.name a) (Db.name b) = true) rows ->
  Sorted (fun a b => Db.str_leb (Db.name a) (Db.name b) = true)
         (Db.insert_by_name r rows).
Proof.
  induction rows as [|r' rows IH]; simpl; intros H.
  - repeat constructor.
  - destruct (Db.str_leb (Db.name r) (Db.name r')) eqn:E.
    + constructor; auto.
    + inversion H as [|a l Hs Hh]; subst. constructor; auto.
      destruct rows as [|r'' rows]; simpl.
      * constructor. now apply str_leb_total.
      * destruct (Db.str_leb (Db.name r) (Db.name r'')).
        -- constructor. now apply str_leb_total.
        -- inversion Hh; subst. now constructor.
Qed.

Lemma order_by_name_sorted rows :
  Sorted (fun a b => Db.str_leb (Db.name a) (Db.name b) = true)
         (Db.order_by_name rows).
Proof.
  induction rows as [|r rows IH]; simpl; [constructor|].
  now apply insert_by_name_sorted.
Qed.

(** X18.  [list_items] returns exactly the rows that pass its filter, each
    once, in ascending order of name; with [in_stock_only] every row it
    returns has a stock above zero, and an empty category filters
    nothing. *)
Theorem list_items_sorted db category in_stock_only :
  Sorted (fun a b => Db.str_leb (Db.name a) (Db.name b) = true)
         (Db.list_items db category in_stock_only)
  /\ Permutation (Db.list_items db category in_stock_only)
                 (filter (Db.list_filter category in_stock_only) (Db.items db))
  /\ (in_stock_only = true ->
      Forall (fun r => (0 < Db.stock r)%Q)
             (Db.list_items db category in_stock_only))
  /\ Permutation (Db.list_items db (Some []) false) (Db.items db).
Proof.
  unfold Db.list_items. splits.
  - apply order_by_name_sorted.
  - apply order_by_name_perm.
  - intros Hs. apply Forall_forall. intros r Hr.
    apply (Permutation_in _ (order_by_name_perm _)) in Hr.
    apply filter_In in Hr. destruct Hr as [_ Hf].
    unfold Db.list_filter in Hf. rewrite Hs in Hf.
    apply andb_prop in Hf. destruct Hf as [_ Hf].
    apply negb_true_iff in Hf. apply Qnot_le_lt. intros Hle.
    apply Qle_bool_iff in Hle. congruence.
  - rewrite order_by_name_perm.
    replace (filter (Db.list_filter (Some []) false) (Db.items db))
      with (Db.items db); auto.
    induction (Db.items db) as [|r rows IH]; simpl; auto. now f_equal.
Qed.

Lemma list_items_sorted_witness :
  Forall (fun r => (0 < Db.stock r)%Q)
         (Db.list_items
            (Db.mkDb [Db.mkRow 1 (u "rice") (u "India Gate") (u "kg") 100 80 5 None;
                      Db.mkRow 2 (u "atta") (u "Aashirvaad") (u "kg") 0 45 5 None;
                      Db.mkRow 3 (u "milk") (u "Amul") (u "litre") 30 60 0 None]
                     3 [] 0)
            None true).
Proof.
  exact (proj1 (proj2 (proj2 (list_items_sorted _ None true))) eq_refl).
Defined.

(** ** The webhook *)

Lemma update_stock_get_same fadd db m change reason row :
  Db.get_item_by_name db m = Some row ->
  (0 <= fadd (Db.stock row) change)%Q ->
  Db.get_item_by_name (snd (Db.update_stock fadd db m change reason)) m
  = Some (Db.mkRow (Db.id row) (Db.name row) (Db.brand row) (Db.unit row)
                   (fadd (Db.stock row) change) (Db.price row) (Db.gst_rate row)
                   (Db.category row)).
Proof.
  intros Hg Hq. unfold Db.update_stock. rewrite Hg.
  apply Qle_bool_iff in Hq. rewrite Hq. cbn [negb snd].
  unfold Db.get_item_by_name in *. cbn [Db.items].
  rewrite find_map_set_stock, Hg. simpl. unfold Db.set_stock.
  now rewrite Z.eqb_refl.
Qed.

Lemma update_stock_get_other fadd db m change reason n :
  Db.wf db ->
  Db.sql_lower n <> Db.sql_lower m ->
  Db.get_item_by_name (snd (Db.update_stock fadd db m change reason)) n
  = Db.get_item_by_name db n.
Proof.
  intros (Hid & _) Hne. unfold Db.update_stock.
  destruct (Db.get_item_by_name db m) as [item|] eqn:Eg; auto.
  destruct (negb (Qle_bool 0 (fadd (Db.stock item) change))); auto.
  cbn [snd]. unfold Db.get_item_by_name in *. cbn [Db.items].
  rewrite find_map_set_stock.
  destruct (find _ (Db.items db)) as [other|] eqn:Eo in |- *; auto.
  simpl. unfold Db.set_stock.
  destruct (Z.eqb_spec (Db.id other) (Db.id item)) as [E|E]; auto.
  exfalso. apply find_some in Eo. apply find_some in Eg.
  destruct Eo as [Hio Heo]. destruct Eg as [Hii Hei].
  assert (other = item) by (apply (NoDup_map_inj Db.id (Db.items db)); auto).
  subst other. apply str_eqb_eq in Heo. apply str_eqb_eq in Hei. congruence.
Qed.

(** Taking out the quantities of items that name different rows, each of
    which has stock enough: the stock of every one of them becomes the sum of
    the old stock and the negated quantity, and no other lookup changes. *)
Lemma deduct_exact fadd its :
  (forall a b, (0 <= a + b)%Q -> (0 <= fadd a b)%Q) ->
  forall db,
    Db.wf db ->
    NoDup (map (fun i => Db.sql_lower (name i)) its) ->
    (forall item, In item its ->
                  exists row, Db.get_item_by_name db (name item) = Some row
                              /\ (quantity item <= Db.stock row)%Q) ->
    (forall item, In item its ->
                  exists row,
                    Db.get_item_by_name db (name item) = Some row
                    /\ Db.get_item_by_name (App.deduct fadd db its) (name item)
                       = Some (Db.mkRow (Db.id row) (Db.name row) (Db.brand row)
                                        (Db.unit row)
                                        (fadd (Db.stock row) (- quantity item)%Q)
                                        (Db.price row) (Db.gst_rate row)
                                        (Db.category row)))
    /\ (forall n, ~ In (Db.sql_lower n) (map (fun i => Db.sql_lower (name i)) its) ->
                  Db.get_item_by_name (App.deduct fadd db its) n
                  = Db.get_item_by_name db n)
    /\ Db.wf (App.deduct fadd db its).
Proof.
  intros Hnn. induction its as [|it its IH]; intros db Hwf Hnd Hav.
  - simpl. splits; auto. intros item [].
  - inversion Hnd as [|k ks Hk Hks]; subst.
    destruct (Hav it (or_introl eq_refl)) as (row & Hg & Hq).
    assert (Hq' : (0 <= fadd (Db.stock row) (- quantity it)%Q)%Q).
    { apply Hnn. apply (Qplus_le_l _ _ (quantity it)). ring_simplify. exact Hq. }
    set (db1 := snd (Db.update_stock fadd db (name it) (- quantity it)%Q (u "order"))).
    assert (Hwf1 : Db.wf db1) by now apply wf_update_stock.
    assert (Hother : forall n, Db.sql_lower n <> Db.sql_lower (name it) ->
                               Db.get_item_by_name db1 n = Db.get_item_by_name db n).
    { intros n Hn. now apply update_stock_get_other. }
    assert (Hav1 : forall item, In item its ->
                     exists row, Db.get_item_by_name db1 (name item) = Some row
                                 /\ (quantity item <= Db.stock row)%Q).
    { intros item Hi. destruct (Hav item (or_intror Hi)) as (r & Hr & Hqr).
      exists r. split; auto. rewrite Hother; auto.
      intros E. apply Hk. rewrite <- E.
      now apply (in_map (fun i => Db.sql_lower (name i))). }
    destruct (IH db1 Hwf1 Hks Hav1) as (Hex & Hrest & Hwf').
    cbn [App.deduct]. fold db1. splits; auto.
    + intros item [E|Hi].
      * subst item. exists row. split; auto.
        rewrite Hrest; auto. now apply update_stock_get_same.
      * destruct (Hex item Hi) as (r & Hr & Hr'). exists r. split; auto.
        rewrite <- Hother; auto.
        intros E. apply Hk. rewrite <- E.
        now apply (in_map (fun i => Db.sql_lower (name i))).
    + intros n Hn. rewrite Hrest.
      * apply Hother. intros E. apply Hn. left. now rewrite E.
      * intros Hin. apply Hn. now right.
Qed.

(** When the availability loop reports nothing missing, every item was found
    with stock enough, and all of them are handed on. *)
Lemma check_stock_all db its :
  snd (App.check_stock db its) = [] ->
  fst (App.check_stock db its) = its
  /\ forall item, In item its ->
                  exists row, Db.get_item_by_name db (name item) = Some row
                              /\ (quantity item <= Db.stock row)%Q.
Proof.
  induction its as [|it its IH]; simpl.
  - intros _. split; auto. intros item [].
  - destruct (App.check_stock db its) as [av un] eqn:E. simpl in IH.
    destruct (Db.get_item_by_name db (name it)) as [row|] eqn:Eg;
      [|discriminate].
    destruct (Qle_bool (quantity it) (Db.stock row)) eqn:Eq; [|discriminate].
    simpl. intros Hun. destruct (IH Hun) as [Hav Hall]. split.
    + now rewrite Hav.
    + intros item [Ei|Hi]; auto. subst item. exists row. split; auto.
      now apply Qle_bool_iff.
Qed.

Lemma deduct_kept fadd its :
  forall db,
    map Db.id (Db.items (App.deduct fadd db its)) = map Db.id (Db.items db)
    /\ map Db.name (Db.items (App.deduct fadd db its)) = map Db.name (Db.items db)
    /\ (Db.wf db -> Db.wf (App.deduct fadd db its))
    /\ (Forall (fun r => (0 <= Db.stock r)%Q) (Db.items db) ->
        Forall (fun r => (0 <= Db.stock r)%Q) (Db.items (App.deduct fadd db its))).
Proof.
  induction its as [|it its IH]; intros db; simpl; [tauto|].
  destruct (IH (snd (Db.update_stock fadd db (name it) (- quantity it)%Q (u "order"))))
    as (Hi & Hn & Hw & Hs).
  assert (Ek : map Db.id (Db.items (snd (Db.update_stock fadd db (name it)
                                             (- quantity it)%Q (u "order"))))
               = map Db.id (Db.items db)
               /\ map Db.name (Db.items (snd (Db.update_stock fadd db (name it)
                                                (- quantity it)%Q (u "order"))))
                  = map Db.name (Db.items db)).
  { unfold Db.update_stock.
    destruct (Db.get_item_by_name db (name it)) as [row|]; auto.
    destruct (negb (Qle_bool 0 (fadd (Db.stock row) (- quantity it)%Q))); auto.
    cbn [snd Db.items]. now rewrite map_id_set_stock, map_name_set_stock. }
  destruct Ek as [Ei En]. splits.
  - now rewrite Hi.
  - now rewrite Hn.
  - intros H. now apply Hw, wf_update_stock.
  - intros H. now apply Hs, update_stock_nonneg.
Qed.

(** X19.  An order that is not accepted leaves the inventory as it was:
    whenever the response says [success = false] (components missing,
    nothing understood, something out of stock, the invoice failing), the
    database after the call is the database before it. *)
Theorem failed_order_keeps_db fadd lower ratio title float_str components_ready
        now_stamp create_invoice msg db :
  App.success (fst (App.process_whatsapp_order
                      fadd lower ratio title float_str components_ready now_stamp
                      create_invoice msg db)) = false ->
  snd (App.process_whatsapp_order
         fadd lower ratio title float_str components_ready now_stamp
         create_invoice msg db) = db.
Proof.
  unfold App.process_whatsapp_order.
  destruct components_ready; cbn [negb]; auto.
  destruct (items (parse_hinglish_order lower ratio (App.message msg)));
    auto.
  destruct (App.check_stock db (p :: l)) as [av [|n un]]; auto.
  destruct (create_invoice _ _ _ _); auto. simpl. discriminate.
Qed.

Lemma failed_order_keeps_db_witness :
  App.success
    (fst (App.process_whatsapp_order
            Qplus py_lower fuzz_ratio (fun s => s) (fun _ => u "2.0") true
            (u "20240101120000") (fun _ _ _ _ => None)
            (App.mkMessage (u "2 kg atta") (u "Rajesh") None None)
            (Db.mkDb [Db.mkRow 1 (u "atta") (u "Aashirvaad") (u "kg") 1 45 5 None]
                     1 [] 0))) = false
  /\ snd (App.process_whatsapp_order
            Qplus py_lower fuzz_ratio (fun s => s) (fun _ => u "2.0") true
            (u "20240101120000") (fun _ _ _ _ => None)
            (App.mkMessage (u "2 kg atta") (u "Rajesh") None None)
            (Db.mkDb [Db.mkRow 1 (u "atta") (u "Aashirvaad") (u "kg") 1 45 5 None]
                     1 [] 0))
     = Db.mkDb [Db.mkRow 1 (u "atta") (u "Aashirvaad") (u "kg") 1 45 5 None]
               1 [] 0.
Proof.
  assert (H : App.success
                (fst (App.process_whatsapp_order
                        Qplus py_lower fuzz_ratio (fun s => s) (fun _ => u "2.0") true
                        (u "20240101120000") (fun _ _ _ _ => None)
                        (App.mkMessage (u "2 kg atta") (u "Rajesh") None None)
                        (Db.mkDb [Db.mkRow 1 (u "atta") (u "Aashirvaad") (u "kg")
                                           1 45 5 None] 1 [] 0))) = false)
    by (vm_compute; reflexivity).
  split; [exact H|].
  exact (failed_order_keeps_db _ _ _ _ _ _ _ _ _ _ H).
Defined.

Lemma accepted_order_facts fadd lower ratio title float_str components_ready
      now_stamp create_invoice msg db :
  App.success (fst (App.process_whatsapp_order
                      fadd lower ratio title float_str components_ready now_stamp
                      create_invoice msg db)) = true ->
  components_ready = true
  /\ items (parse_hinglish_order lower ratio (App.message msg)) <> []
  /\ (forall item,
         In item (items (parse_hinglish_order lower ratio (App.message msg))) ->
         exists row, Db.get_item_by_name db (name item) = Some row
                     /\ (quantity item <= Db.stock row)%Q)
  /\ create_invoice (parse_hinglish_order lower ratio (App.message msg))
                    (App.customer_name msg) (App.customer_phone msg)
                    (u "invoices/" ++ (u "ORD" ++ now_stamp) ++ u ".pdf") = None
  /\ App.process_whatsapp_order fadd lower ratio title float_str components_ready
                                now_stamp create_invoice msg db
     = (App.mkResponse
          true
          (generate_reply title float_str
                          (Some (parse_hinglish_order lower ratio (App.message msg)))
                          (App.customer_name msg))
          (Some (u "ORD" ++ now_stamp))
          (Some (u "invoices/" ++ (u "ORD" ++ now_stamp) ++ u ".pdf"))
          None,
        App.deduct fadd db (items (parse_hinglish_order lower ratio (App.message msg)))).
Proof.
  unfold App.process_whatsapp_order.
  destruct components_ready; cbn [negb]; [|simpl; discriminate].
  destruct (items (parse_hinglish_order lower ratio (App.message msg)))
    as [|it its] eqn:Ei; [simpl; discriminate|].
  pose proof (check_stock_all db (it :: its)) as Hc.
  destruct (App.check_stock db (it :: its)) as [av [|n un]];
    [|simpl; discriminate].
  destruct (Hc eq_refl) as [Hav Hall]. cbn [fst] in Hav. subst av.
  destruct (create_invoice _ _ _ _) eqn:Ec; [simpl; discriminate|].
  intros _. splits; auto. discriminate.
Qed.

(** X20.  An order is accepted only when the components are there, the
    message yields at least one item, every item is found in the inventory
    with at least the stock asked for, and the invoice is written; the reply
    is then the confirmation [generate_reply] gives for the parsed order and
    the order id is "ORD" followed by the time stamp. *)
Theorem accepted_order fadd lower ratio title float_str components_ready
        now_stamp create_invoice msg db :
  App.success (fst (App.process_whatsapp_order
                      fadd lower ratio title float_str components_ready now_stamp
                      create_invoice msg db)) = true ->
  components_ready = true
  /\ items (parse_hinglish_order lower ratio (App.message msg)) <> []
  /\ (forall item,
         In item (items (parse_hinglish_order lower ratio (App.message msg))) ->
         exists row, Db.get_item_by_name db (name item) = Some row
                     /\ (quantity item <= Db.stock row)%Q)
  /\ create_invoice (parse_hinglish_order lower ratio (App.message msg))
                    (App.customer_name msg) (App.customer_phone msg)
                    (u "invoices/" ++ (u "ORD" ++ now_stamp) ++ u ".pdf") = None
  /\ App.process_whatsapp_order fadd lower ratio title float_str components_ready
                                now_stamp create_invoice msg db
     = (App.mkResponse
          true
          (generate_reply title float_str
                          (Some (parse_hinglish_order lower ratio (App.message msg)))
                          (App.customer_name msg))
          (Some (u "ORD" ++ now_stamp))
          (Some (u "invoices/" ++ (u "ORD" ++ now_stamp) ++ u ".pdf"))
          None,
        App.deduct fadd db (items (parse_hinglish_order lower ratio (App.message msg)))).
Proof. apply accepted_order_facts. Qed.

(** X21.  When an accepted order names each inventory row at most once, the
    stock of every ordered item becomes the sum of the old stock and the
    negated quantity, as the addition of floats gives it, and the lookup of
    any name the order does not mention gives what it gave before.  Of the
    addition only this is used: where the exact sum of two numbers is not
    negative, neither is their float sum. *)
Theorem accepted_order_deducts fadd lower ratio title float_str components_ready
        now_stamp create_invoice msg db :
  (forall a b, (0 <= a + b)%Q -> (0 <= fadd a b)%Q) ->
  Db.wf db ->
  NoDup (map (fun i => Db.sql_lower (name i))
             (items (parse_hinglish_order lower ratio (App.message msg)))) ->
  App.success (fst (App.process_whatsapp_order
                      fadd lower ratio title float_str components_ready now_stamp
                      create_invoice msg db)) = true ->
  (forall item,
      In item (items (parse_hinglish_order lower ratio (App.message msg))) ->
      exists row,
        Db.get_item_by_name db (name item) = Some row
        /\ Db.get_item_by_name
             (snd (App.process_whatsapp_order
                     fadd lower ratio title float_str components_ready now_stamp
                     create_invoice msg db)) (name item)
           = Some (Db.mkRow (Db.id row) (Db.name row) (Db.brand row)
                            (Db.unit row) (fadd (Db.stock row) (- quantity item)%Q)
                            (Db.price row) (Db.gst_rate row) (Db.category row)))
  /\ (forall n,
         ~ In (Db.sql_lower n)
              (map (fun i => Db.sql_lower (name i))
                   (items (parse_hinglish_order lower ratio (App.message msg)))) ->
         Db.get_item_by_name
           (snd (App.process_whatsapp_order
                   fadd lower ratio title float_str components_ready now_stamp
                   create_invoice msg db)) n
         = Db.get_item_by_name db n).
Proof.
  intros Hnn Hwf Hnd Hs.
  destruct (accepted_order_facts _ _ _ _ _ _ _ _ _ _ Hs)
    as (_ & _ & Hall & _ & Hr).
  rewrite Hr. cbn [snd].
  destruct (deduct_exact fadd _ Hnn db Hwf Hnd Hall) as (H1 & H2 & _).
  now split.
Qed.

Lemma sample_db_wf : Db.wf sample_db.
Proof.
  unfold Db.wf. simpl. splits.
  - repeat constructor; simpl; intuition discriminate.
  - repeat constructor; simpl; intuition discriminate.
  - repeat constructor; simpl; lia.
  - repeat constructor.
Qed.

Lemma accepted_order_witness :
  App.success (fst (sample_webhook (u "2 kg atta, 1 litre milk") sample_db)) = true
  /\ items (parse_hinglish_order py_lower fuzz_ratio (u "2 kg atta, 1 litre milk"))
     <> [].
Proof.
  assert (H : App.success
                (fst (sample_webhook (u "2 kg atta, 1 litre milk") sample_db))
              = true) by (vm_compute; reflexivity).
  split; [exact H|].
  exact (proj1 (proj2 (accepted_order _ _ _ _ _ _ _ _ _ _ H))).
Defined.

Lemma accepted_order_deducts_witness :
  Db.wf sample_db
  /\ NoDup (map (fun i => Db.sql_lower (name i))
                (items (parse_hinglish_order py_lower fuzz_ratio
                                             (u "2 kg atta, 1 litre milk"))))
  /\ App.success (fst (sample_webhook (u "2 kg atta, 1 litre milk") sample_db))
     = true
  /\ forall item,
      In item (items (parse_hinglish_order py_lower fuzz_ratio
                                           (u "2 kg atta, 1 litre milk"))) ->
      exists row,
        Db.get_item_by_name sample_db (name item) = Some row
        /\ Db.get_item_by_name
             (snd (sample_webhook (u "2 kg atta, 1 litre milk") sample_db))
             (name item)
           = Some (Db.mkRow (Db.id row) (Db.name row) (Db.brand row)
                            (Db.unit row) (Db.stock row + - quantity item)%Q
                            (Db.price row) (Db.gst_rate row) (Db.category row)).
Proof.
  assert (H2 : NoDup (map (fun i => Db.sql_lower (name i))
                          (items (parse_hinglish_order
                                    py_lower fuzz_ratio
                                    (u "2 kg atta, 1 litre milk"))))).
  { vm_compute. repeat constructor; simpl; intuition discriminate. }
  assert (H3 : App.success
                 (fst (sample_webhook (u "2 kg atta, 1 litre milk") sample_db))
               = true) by (vm_compute; reflexivity).
  split; [exact sample_db_wf|]. split; [exact H2|]. split; [exact H3|].
  exact (proj1 (accepted_order_deducts
                  Qplus py_lower fuzz_ratio (fun s => s) (fun _ => []) true
                  (u "20240101120000") (fun _ _ _ _ => None)
                  (App.mkMessage (u "2 kg atta, 1 litre milk") (u "Rajesh")
                                 None None)
                  sample_db (fun _ _ H => H) sample_db_wf H2 H3)).
Defined.

(** X22.  Whatever the message and the outcome, the handler keeps the
    inventory sound: the rows keep their ids and names, a well-formed state
    stays well formed, and when no stock was negative none becomes so. *)
Theorem webhook_keeps_inventory fadd lower ratio title float_str components_ready
        now_stamp create_invoice msg db :
  map Db.id (Db.items (snd (App.process_whatsapp_order
                              fadd lower ratio title float_str components_ready
                              now_stamp create_invoice msg db)))
  = map Db.id (Db.items db)
  /\ map Db.name (Db.items (snd (App.process_whatsapp_order
                                   fadd lower ratio title float_str components_ready
                                   now_stamp create_invoice msg db)))
     = map Db.name (Db.items db)
  /\ (Db.wf db ->
      Db.wf (snd (App.process_whatsapp_order
                    fadd lower ratio title float_str components_ready now_stamp
                    create_invoice msg db)))
  /\ (Forall (fun r => (0 <= Db.stock r)%Q) (Db.items db) ->
      Forall (fun r => (0 <= Db.stock r)%Q)
             (Db.items (snd (App.process_whatsapp_order
                               fadd lower ratio title float_str components_ready
                               now_stamp create_invoice msg db)))).
Proof.
  unfold App.process_whatsapp_order.
  destruct components_ready; cbn [negb]; [|simpl; tauto].
  destruct (items (parse_hinglish_order lower ratio (App.message msg)))
    as [|it its]; [simpl; tauto|].
  destruct (App.check_stock db (it :: its)) as [av [|n un]]; [|simpl; tauto].
  destruct (create_invoice _ _ _ _); [simpl; tauto|].
  cbn [snd]. destruct (deduct_kept fadd av db) as (H1 & H2 & H3 & H4). now splits.
Qed.

Lemma webhook_keeps_inventory_witness :
  Db.wf sample_db
  /\ Db.wf (snd (sample_webhook (u "2 kg atta, 1 litre milk") sample_db)).
Proof.
  split; [exact sample_db_wf|].
  exact (proj1 (proj2 (proj2 (webhook_keeps_inventory
                                Qplus py_lower fuzz_ratio (fun s => s) (fun _ => [])
                                true (u "20240101120000") (fun _ _ _ _ => None)
                                (App.mkMessage (u "2 kg atta, 1 litre milk")
                                               (u "Rajesh") None None)
                                sample_db))) sample_db_wf).
Defined.

(** X23.  A message without a decimal digit gets the fixed request to
    specify items and quantities, marked as failed to parse, and the
    inventory is not touched. *)
Theorem webhook_no_digit fadd lower ratio title float_str now_stamp create_invoice
        msg db :
  forallb (fun c => negb (isdecimal c)) (App.message msg) = true ->
  App.process_whatsapp_order fadd lower ratio title float_str true now_stamp
                             create_invoice msg db
  = (App.mkResponse
       false
       (u "Sorry, I couldn't understand the order. Please specify items and quantities."
          ++ [10%N; 10%N] ++ u "Example: '2 kg atta, 1 litre milk'")
       None None (Some (u "Failed to parse order")),
     db).
Proof.
  intros H. unfold App.process_whatsapp_order. cbn [negb].
  unfold parse_hinglish_order, findall.
  rewrite (findall_from_no_digit _ H 0). reflexivity.
Qed.

Lemma webhook_no_digit_witness :
  forallb (fun c => negb (isdecimal c)) (u "do kilo atta bhejo") = true
  /\ sample_webhook (u "do kilo atta bhejo") sample_db
     = (App.mkResponse
          false
          (u "Sorry, I couldn't understand the order. Please specify items and quantities."
             ++ [10%N; 10%N] ++ u "Example: '2 kg atta, 1 litre milk'")
          None None (Some (u "Failed to parse order")),
        sample_db).
Proof.
  assert (H : forallb (fun c => negb (isdecimal c)) (u "do kilo atta bhejo")
              = true) by (vm_compute; reflexivity).
  split; [exact H|].
  exact (webhook_no_digit Qplus py_lower fuzz_ratio (fun s => s) (fun _ => [])
                          (u "20240101120000") (fun _ _ _ _ => None)
                          (App.mkMessage (u "do kilo atta bhejo") (u "Rajesh")
                                         None None)
                          sample_db H).
Defined.

Lemma check_stock_filter db its :
  App.check_stock db its
  = (filter (in_stock db) its,
     map name (filter (fun i => negb (in_stock db i)) its)).
Proof.
  induction its as [|it its IH]; simpl; auto. rewrite IH. unfold in_stock.
  destruct (Db.get_item_by_name db (name it)) as [row|]; simpl; auto.
  now destruct (Qle_bool (quantity it) (Db.stock row)).
Qed.

(** X24.  When the message yields items and some of them are not in stock
    (no row for the name, or less stock than asked), the order fails, the
    inventory is not touched, and the reply names exactly those items, in
    the order of the message, followed by the items that are available or,
    if there are none, by the advice to order something else. *)
Theorem out_of_stock_report fadd lower ratio title float_str now_stamp
        create_invoice msg db :
  items (parse_hinglish_order lower ratio (App.message msg)) <> [] ->
  filter (fun i => negb (in_stock db i))
         (items (parse_hinglish_order lower ratio (App.message msg))) <> [] ->
  App.process_whatsapp_order fadd lower ratio title float_str true now_stamp
                             create_invoice msg db
  = (App.mkResponse
       false
       (u "Sorry " ++ App.customer_name msg
          ++ u ", these items are out of stock: "
          ++ join (u ", ")
                  (map name
                       (filter (fun i => negb (in_stock db i))
                               (items (parse_hinglish_order lower ratio
                                                            (App.message msg)))))
          ++ [10%N; 10%N]
          ++ match filter (in_stock db)
                          (items (parse_hinglish_order lower ratio
                                                       (App.message msg))) with
             | _ :: _ =>
               u "Available items: "
                 ++ join (u ", ")
                         (map (App.item_text float_str)
                              (filter (in_stock db)
                                      (items (parse_hinglish_order
                                                lower ratio (App.message msg)))))
             | [] => u "Please try ordering other items."
             end)
       None None (Some (u "Some items unavailable")),
     db).
Proof.
  intros Hi Hs. unfold App.process_whatsapp_order. cbn [negb].
  destruct (items (parse_hinglish_order lower ratio (App.message msg)))
    as [|it its] eqn:E; [congruence|].
  rewrite check_stock_filter.
  destruct (filter (fun i => negb (in_stock db i)) (it :: its)) as [|s ss] eqn:Ef;
    [congruence|].
  cbn [map]. reflexivity.
Qed.

Lemma out_of_stock_report_witness :
  items (parse_hinglish_order py_lower fuzz_ratio (u "2 kg atta, 3 packet biscuit"))
  <> []
  /\ filter (fun i => negb (in_stock sample_db i))
            (items (parse_hinglish_order py_lower fuzz_ratio
                                         (u "2 kg atta, 3 packet biscuit"))) <> []
  /\ App.success (fst (sample_webhook (u "2 kg atta, 3 packet biscuit") sample_db))
     = false
  /\ snd (sample_webhook (u "2 kg atta, 3 packet biscuit") sample_db) = sample_db.
Proof.
  assert (H1 : items (parse_hinglish_order py_lower fuzz_ratio
                                           (u "2 kg atta, 3 packet biscuit")) <> [])
    by (vm_compute; discriminate).
  assert (H2 : filter (fun i => negb (in_stock sample_db i))
                      (items (parse_hinglish_order py_lower fuzz_ratio
                                                   (u "2 kg atta, 3 packet biscuit")))
               <> []) by (vm_compute; discriminate).
  split; [exact H1|]. split; [exact H2|].
  pose proof (out_of_stock_report
                Qplus py_lower fuzz_ratio (fun s => s) (fun _ => [])
                (u "20240101120000") (fun _ _ _ _ => None)
                (App.mkMessage (u "2 kg atta, 3 packet biscuit") (u "Rajesh")
                               None None)
                sample_db H1 H2) as H.
  unfold sample_webhook. rewrite H. split; reflexivity.
Defined.

(** ** The invoice table *)

Lemma parsed_quantity_nonneg lower ratio msg item :
  In item (items (parse_hinglish_order lower ratio msg)) ->
  (0 <= quantity item)%Q.
Proof.
  intros Hin. simpl in Hin. apply in_parse_matches in Hin.
  destruct Hin as ([[q un] p] & Hin & Hm).
  destruct (findall_pattern msg q un p Hin) as ((Hq & _) & _).
  destruct (quantity_float q Hq) as (v & Hv & Hpos).
  apply parse_match_quantity in Hm. simpl in Hm.
  rewrite Hv in Hm. inversion Hm. subst v. exact Hpos.
Qed.

(** The running total over items that come from the parser: the amounts
    at rate 50, added up in the order of the items. *)
Lemma invoice_total_from (fmul fadd : Q -> Q -> Q) its :
  forall a,
    fold_left (fun t item => fadd t (Invoice.amount (Invoice.line fmul item)))
              (map invoice_item its) a
    = fold_left fadd (map (fun i => fmul (quantity i) 50%Q) its) a.
Proof.
  induction its as [|it its IH]; intros a; simpl; auto.
Qed.

Lemma fold_fadd_nonneg (fadd : Q -> Q -> Q) qs :
  (forall a b, (0 <= a)%Q -> (0 <= b)%Q -> (0 <= fadd a b)%Q) ->
  Forall (fun q => (0 <= q)%Q) qs ->
  forall a, (0 <= a)%Q -> (0 <= fold_left fadd qs a)%Q.
Proof.
  intros Hf. induction 1 as [|q qs Hq _ IH]; intros a Ha; simpl; auto.
Qed.

(** X25.  The invoice of an order that comes from the parser has one line
    for each item, in the order of the items, and bills every line at the
    default rate 50, whatever the inventory says: the items the parser
    builds carry no price.  A line shows the item's name with its unit, its
    quantity, the rate 50 and the product of the two as Python's
    multiplication gives it; the total is these amounts added up from 0 in
    the order of the lines, as Python's addition gives it.  Where product and
    sum of two numbers that are not negative are not negative, as those of
    floats are, neither is the total. *)
Theorem invoice_of_parsed_order fmul fadd lower ratio msg :
  Invoice.lines fmul
                (map invoice_item (items (parse_hinglish_order lower ratio msg)))
  = map (fun i => Invoice.mkLine (name i ++ u " (" ++ unit i ++ u ")")
                                 (quantity i) 50%Q (fmul (quantity i) 50%Q))
        (items (parse_hinglish_order lower ratio msg))
  /\ Invoice.total fmul fadd
                   (map invoice_item (items (parse_hinglish_order lower ratio msg)))
     = fold_left fadd
                 (map (fun i => fmul (quantity i) 50%Q)
                      (items (parse_hinglish_order lower ratio msg)))
                 0%Q
  /\ ((forall a b, (0 <= a)%Q -> (0 <= b)%Q -> (0 <= fmul a b)%Q) ->
      (forall a b, (0 <= a)%Q -> (0 <= b)%Q -> (0 <= fadd a b)%Q) ->
      (0 <= Invoice.total
              fmul fadd
              (map invoice_item (items (parse_hinglish_order lower ratio msg))))%Q).
Proof.
  splits.
  - unfold Invoice.lines. rewrite map_map. reflexivity.
  - unfold Invoice.total. apply invoice_total_from.
  - intros Hm Ha. unfold Invoice.total. rewrite invoice_total_from.
    apply fold_fadd_nonneg; auto; [|apply Qle_refl].
    apply Forall_forall. intros q Hq. apply in_map_iff in Hq.
    destruct Hq as (i & E & Hi). subst q. apply Hm; [|discriminate].
    now apply (parsed_quantity_nonneg lower ratio msg).
Qed.

(** ** The ledger text *)

Lemma split_on_in sep s :
  forall p, In p (split_on sep s) ->
            forall c, In c p -> In c s /\ c <> sep.
Proof.
  induction s as [|c0 s IH]; simpl; intros p Hp c Hc.
  - destruct Hp as [E|[]]. subst p. destruct Hc.
  - destruct (N.eqb_spec c0 sep) as [E|E].
    + destruct Hp as [Ep|Hp]; [subst p; destruct Hc|].
      destruct (IH p Hp c Hc). auto.
    + destruct (split_on sep s) as [|p1 ps] eqn:Es.
      * destruct Hp as [Ep|[]]. subst p. destruct Hc as [Ec|[]].
        subst c. auto.
      * destruct Hp as [Ep|Hp].
        -- subst p. destruct Hc as [Ec|Hc]; [subst c; auto|].
           destruct (IH p1 (or_introl eq_refl) c Hc). auto.
        -- destruct (IH p (or_intror Hp) c Hc). auto.
Qed.

Lemma split_on_no_sep sep s :
  forallb (fun c => negb (c =? sep)%N) s = true -> split_on sep s = [s].
Proof.
  induction s as [|c s IH]; simpl; auto. intros H.
  apply andb_prop in H. destruct H as [Hc Hs].
  apply negb_true_iff in Hc. rewrite Hc, (IH Hs). reflexivity.
Qed.

(** X26.  A ledger text without a hyphen yields no item: every line is
    skipped, for want of the separator between the name and the quantity. *)
Theorem ledger_needs_hyphen F float lower text :
  forallb (fun c => negb (c =? 45)%N) text = true ->
  Ocr.parse_ledger_text F float lower text = [].
Proof.
  intros H. unfold Ocr.parse_ledger_text.
  assert (Hl : forall line, In line (split_on 10%N (strip text)) ->
                            Ocr.parse_line F float lower line = None).
  { intros line Hin. unfold Ocr.parse_line.
    destruct (is_empty (strip line)); auto.
    rewrite split_on_no_sep; auto.
    apply forallb_forall. intros c Hc.
    destruct (split_on_in _ _ _ Hin c Hc) as [Hs _].
    apply in_strip in Hs. rewrite forallb_forall in H. now apply H. }
  induction (split_on 10%N (strip text)) as [|line ls IH]; simpl; auto.
  rewrite (Hl line) by now left. apply IH. intros l Hin. apply Hl. now right.
Qed.

Lemma ledger_needs_hyphen_witness :
  forallb (fun c => negb (c =? 45)%N) (u "Rice 5 kg") = true
  /\ Ocr.parse_ledger_text Q py_float py_lower (u "Rice 5 kg") = [].
Proof.
  assert (H : forallb (fun c => negb (c =? 45)%N) (u "Rice 5 kg") = true)
    by (vm_compute; reflexivity).
  split; [exact H|].
  exact (ledger_needs_hyphen Q py_float py_lower _ H).
Defined.

Lemma in_parse_lines F float lower item lines :
  In item (Ocr.parse_lines F float lower lines) ->
  exists line, In line lines /\ Ocr.parse_line F float lower line = Some item.
Proof.
  induction lines as [|l ls IH]; simpl; [contradiction|].
  destruct (Ocr.parse_line F float lower l) as [it|] eqn:E.
  - intros [H|H].
    + subst it. exists l. auto.
    + destruct (IH H) as (l' & Hin & Hl). exists l'. auto.
  - intros H. destruct (IH H) as (l' & Hin & Hl). exists l'. auto.
Qed.

(** The first piece of [s.split(sep)] is the text before the first
    separator, and the other pieces are those of the text after it. *)
Lemma split_on_head sep s :
  exists p ps,
    split_on sep s = p :: ps /\ ~ In sep p
    /\ ((ps = [] /\ s = p)
        \/ exists s', s = p ++ sep :: s' /\ ps = split_on sep s').
Proof.
  induction s as [|c s IH]; simpl.
  - exists [], []. splits; auto.
  - destruct (N.eqb_spec c sep) as [E|E].
    + subst c. exists [], (split_on sep s). splits; auto.
      right. now exists s.
    + destruct IH as (p & ps & Es & Hp & Hc). rewrite Es.
      exists (c :: p), ps. splits; auto.
      * intros [H|H]; auto.
      * destruct Hc as [[E1 E2]|(s' & E1 & E2)].
        -- left. split; auto. now rewrite E2.
        -- right. exists s'. split; auto. now rewrite E1.
Qed.

Lemma split_on_not_nil sep s : split_on sep s <> [].
Proof.
  destruct (split_on_head sep s) as (p & ps & E & _). rewrite E. discriminate.
Qed.

(** Where [s.split(sep)] has two pieces or more: the first two, with the
    separator between them, begin the text, and what follows them is
    nothing or begins with a separator. *)
Lemma split_on_two sep s p0 p1 ps :
  split_on sep s = p0 :: p1 :: ps ->
  exists tl,
    s = p0 ++ sep :: p1 ++ tl
    /\ ~ In sep p0 /\ ~ In sep p1
    /\ (tl = [] \/ exists tl', tl = sep :: tl').
Proof.
  intros E. destruct (split_on_head sep s) as (p & ps' & Es & Hp & Hc).
  rewrite E in Es. inversion Es; subst p ps'; clear Es.
  destruct Hc as [[E1 _]|(s' & E1 & E2)]; [discriminate|].
  destruct (split_on_head sep s') as (q & qs & Es' & Hq & Hc').
  rewrite <- E2 in Es'. inversion Es'; subst q qs; clear Es'.
  destruct Hc' as [[E3 E4]|(s'' & E3 & E4)].
  - exists []. rewrite app_nil_r. splits; auto. now rewrite E1, E4.
  - exists (sep :: s''). splits; auto.
    + now rewrite E1, E3.
    + right. now exists s''.
Qed.

(** The first word of [s.split()]: blanks before it, no blank in it, and
    after it nothing or a blank; the other words are those of the rest. *)
Lemma split_ws_head s :
  match split_ws s with
  | [] => forallb isspace s = true
  | t :: ts =>
    exists b r,
      s = b ++ t ++ r
      /\ forallb isspace b = true
      /\ t <> [] /\ forallb (fun c => negb (isspace c)) t = true
      /\ (r = [] \/ exists c r', r = c :: r' /\ isspace c = true)
      /\ split_ws r = ts
  end.
Proof.
  induction s as [|c s IH]; [reflexivity|].
  cbn [split_ws]. destruct (isspace c) eqn:Ec.
  - destruct (split_ws s) as [|t ts].
    + simpl. now rewrite Ec.
    + destruct IH as (b & r & E & Hb & Ht & Hn & Hr & Hs).
      exists (c :: b), r. splits; auto.
      * simpl. now rewrite E.
      * simpl. now rewrite Ec.
  - destruct s as [|d s'].
    + exists [], []. splits; auto; [discriminate|].
      simpl. now rewrite Ec.
    + destruct (isspace d) eqn:Ed.
      * exists [], (d :: s'). splits; auto; [discriminate| |].
        -- simpl. now rewrite Ec.
        -- right. now exists d, s'.
      * destruct (split_ws (d :: s')) as [|t ts].
        -- simpl in IH. rewrite Ed in IH. discriminate.
        -- destruct IH as (b & r & E & Hb & Ht & Hn & Hr & Hs).
           destruct b as [|x b].
           ++ exists [], r. splits; auto; [|discriminate|].
              ** simpl. simpl in E. now rewrite E.
              ** simpl. now rewrite Ec.
           ++ simpl in E. inversion E; subst x. simpl in Hb.
              rewrite Ed in Hb. discriminate.
Qed.

(** The first two words of [s.split()], where it has two or more. *)
Lemma split_ws_two s q un ts :
  split_ws s = q :: un :: ts ->
  exists b0 b1 tl,
    s = b0 ++ q ++ b1 ++ un ++ tl
    /\ forallb isspace b0 = true
    /\ q <> [] /\ forallb (fun c => negb (isspace c)) q = true
    /\ b1 <> [] /\ forallb isspace b1 = true
    /\ un <> [] /\ forallb (fun c => negb (isspace c)) un = true
    /\ (tl = [] \/ exists c r, tl = c :: r /\ isspace c = true).
Proof.
  intros E. pose proof (split_ws_head s) as H. rewrite E in H.
  destruct H as (b0 & r & Es & Hb0 & Hq & Hqn & Hr & Hs).
  pose proof (split_ws_head r) as H. rewrite Hs in H.
  destruct H as (b1 & tl & Er & Hb1 & Hu & Hun & Htl & _).
  exists b0, b1, tl. splits; auto.
  - now rewrite Es, Er.
  - intros E1. subst b1. simpl in Er.
    destruct Hr as [E0|(c & r' & E0 & Hc)].
    + rewrite E0 in Er. destruct un; [now apply Hu|discriminate].
    + destruct un as [|x un]; [now apply Hu|].
      rewrite E0 in Er. simpl in Er. inversion Er; subst x.
      simpl in Hun. now rewrite Hc in Hun.
Qed.

Lemma lstrip_blanks s :
  exists pre, s = pre ++ lstrip s /\ forallb isspace pre = true.
Proof.
  induction s as [|x s IH]; simpl.
  - now exists [].
  - destruct (isspace x) eqn:E.
    + destruct IH as (pre & Es & Hp). exists (x :: pre). simpl.
      rewrite E, <- Es. auto.
    + now exists [].
Qed.

Lemma forallb_rev {A} (f : A -> bool) l :
  forallb f l = true -> forallb f (rev l) = true.
Proof.
  intros H. apply forallb_forall. intros x Hx. apply in_rev in Hx.
  rewrite forallb_forall in H. now apply H.
Qed.

(** A text is its trimmed form with blanks before and after it. *)
Lemma strip_blanks s :
  exists a b,
    s = a ++ strip s ++ b
    /\ forallb isspace a = true /\ forallb isspace b = true.
Proof.
  destruct (lstrip_blanks s) as (a & Ea & Ha).
  destruct (lstrip_blanks (rev (lstrip s))) as (b & Eb & Hb).
  exists a, (rev b). splits; auto using forallb_rev.
  unfold strip, rstrip. rewrite <- rev_app_distr, <- Eb, rev_involutive.
  exact Ea.
Qed.

Lemma forallb_and {A} (f g : A -> bool) l :
  forallb f l = true -> (forall x, In x l -> g x = true) ->
  forallb (fun x => f x && g x) l = true.
Proof.
  intros Hf Hg. apply forallb_forall. intros x Hx.
  rewrite forallb_forall in Hf. now rewrite (Hf x Hx), (Hg x Hx).
Qed.

(** X27.  Every item read from a ledger text comes from one line of it,
    read off by position.  The line is the text before its first hyphen, the
    hyphen, blanks if any, a first word, one blank or more, a second word,
    and then nothing, a blank or another hyphen; neither word is empty or
    holds a blank or a hyphen.  The item's name is the lowercased, trimmed
    text before the first hyphen, its quantity is what [float] makes of the
    first word, and its unit is the second word as it stands. *)
Theorem ledger_item_shape F float lower text item :
  In item (Ocr.parse_ledger_text F float lower text) ->
  exists line p0 b0 q b1 un rest,
    In line (split_on 10%N (strip text))
    /\ line = p0 ++ [45%N] ++ b0 ++ q ++ b1 ++ un ++ rest
    /\ ~ In 45%N p0
    /\ forallb isspace b0 = true
    /\ q <> []
    /\ forallb (fun c => negb (isspace c) && negb (c =? 45)%N) q = true
    /\ b1 <> [] /\ forallb isspace b1 = true
    /\ un <> []
    /\ forallb (fun c => negb (isspace c) && negb (c =? 45)%N) un = true
    /\ (rest = []
        \/ exists c r, rest = c :: r /\ (isspace c = true \/ c = 45%N))
    /\ Ocr.name F item = lower (strip p0)
    /\ float q = Some (Ocr.quantity F item)
    /\ Ocr.unit F item = un.
Proof.
  intros Hin. unfold Ocr.parse_ledger_text in Hin.
  apply in_parse_lines in Hin. destruct Hin as (line & Hl & Hp).
  unfold Ocr.parse_line in Hp.
  destruct (is_empty (strip line)); [discriminate|].
  destruct (split_on 45%N line) as [|p0 [|p1 ps]] eqn:Es; try discriminate.
  destruct (split_ws (strip p1)) as [|q [|un ts]] eqn:Ew; try discriminate.
  destruct (float q) as [v|] eqn:Ef; [|discriminate].
  inversion Hp; subst; clear Hp. cbn [Ocr.name Ocr.quantity Ocr.unit].
  destruct (split_on_two _ _ _ _ _ Es) as (t2 & El & H0 & H1 & Ht2).
  destruct (split_ws_two _ _ _ _ Ew)
    as (b0 & b1 & tl & E1 & Hb0 & Hq & Hqn & Hb1 & Hb1s & Hu & Hun & Htl).
  destruct (strip_blanks p1) as (a & b & Ep & Ha & Hb).
  assert (Hin1 : forall w c, In w [q; un] -> In c w -> In c p1).
  { intros w c Hw Hc. rewrite Ep, E1.
    apply in_or_app. right. apply in_or_app. left.
    apply in_or_app. right.
    destruct Hw as [E|[E|[]]]; subst w.
    - apply in_or_app. now left.
    - apply in_or_app. right. apply in_or_app. right.
      apply in_or_app. now left. }
  assert (Hno : forall w, In w [q; un] ->
                          forall c, In c w -> negb (c =? 45)%N = true).
  { intros w Hw c Hc. apply negb_true_iff. apply N.eqb_neq. intros E.
    subst c. apply H1. now apply (Hin1 w). }
  exists line, p0, (a ++ b0), q, b1, un, ((tl ++ b) ++ t2).
  splits; auto.
  - rewrite El. f_equal. simpl. f_equal. rewrite Ep at 1. rewrite E1.
    now rewrite <- !app_assoc.
  - rewrite forallb_app. now rewrite Ha, Hb0.
  - apply forallb_and; auto. apply Hno. now left.
  - apply forallb_and; auto. apply Hno. right. now left.
  - destruct tl as [|c r].
    + destruct b as [|c r].
      * destruct Ht2 as [E|(t' & E)]; [now left|].
        right. exists 45%N, t'. simpl. split; auto.
      * right. exists c, (r ++ t2). split; auto. left.
        simpl in Hb. now destruct (isspace c).
    + right. exists c, ((r ++ b) ++ t2). split; auto. left.
      destruct Htl as [E|(c' & r' & E & Hc)]; [discriminate|].
      now inversion E; subst.
Qed.

Lemma ledger_item_shape_witness :
  In (Ocr.mkItem Q (u "basmati rice") 5%Q (u "kg"))
     (Ocr.parse_ledger_text Q py_float py_lower (u "Basmati Rice - 5 kg"))
  /\ exists line p0 b0 q b1 un rest,
      In line (split_on 10%N (strip (u "Basmati Rice - 5 kg")))
      /\ line = p0 ++ [45%N] ++ b0 ++ q ++ b1 ++ un ++ rest
      /\ ~ In 45%N p0
      /\ u "basmati rice" = py_lower (strip p0)
      /\ py_float q = Some 5%Q
      /\ u "kg" = un.
Proof.
  assert (H : In (Ocr.mkItem Q (u "basmati rice") 5%Q (u "kg"))
                 (Ocr.parse_ledger_text Q py_float py_lower
                                        (u "Basmati Rice - 5 kg"))).
  { vm_compute. left. reflexivity. }
  split; [exact H|].
  destruct (ledger_item_shape Q py_float py_lower _ _ H)
    as (line & p0 & b0 & q & b1 & un & rest & H1 & H2 & H3 & _ & _ & _ & _ & _
        & _ & _ & _ & H4 & H5 & H6).
  exists line, p0, b0, q, b1, un, rest. splits; auto.
Defined.

(** X28.  A product that is ordered twice, each time within the stock, the
    second time beyond what the first deduction leaves, passes the
    availability loop, and only the first of the two quantities is taken
    out: the second update is refused and the refusal goes unnoticed.  Of the
    addition of floats only this is used: their sum has the sign of the
    exact sum. *)
Theorem ordered_twice_beyond_stock fadd db first second row :
  (forall a b, (0 <= a + b)%Q -> (0 <= fadd a b)%Q) ->
  (forall a b, (a + b < 0)%Q -> (fadd a b < 0)%Q) ->
  Db.get_item_by_name db (name first) = Some row ->
  name second = name first ->
  (quantity first <= Db.stock row)%Q ->
  (quantity second <= Db.stock row)%Q ->
  (fadd (Db.stock row) (- quantity first)%Q < quantity second)%Q ->
  App.check_stock db [first; second] = ([first; second], [])
  /\ Db.get_item_by_name (App.deduct fadd db [first; second]) (name first)
     = Some (Db.mkRow (Db.id row) (Db.name row) (Db.brand row) (Db.unit row)
                      (fadd (Db.stock row) (- quantity first)%Q) (Db.price row)
                      (Db.gst_rate row) (Db.category row)).
Proof.
  intros Hnn Hlt Hg Hn H1 H2 H3. split.
  - simpl. rewrite Hn, Hg.
    apply Qle_bool_iff in H1. apply Qle_bool_iff in H2. now rewrite H1, H2.
  - assert (Hq : (0 <= fadd (Db.stock row) (- quantity first)%Q)%Q).
    { apply Hnn. apply (Qplus_le_l _ _ (quantity first)). ring_simplify.
      exact H1. }
    pose proof (update_stock_get_same fadd db (name first) (- quantity first)%Q
                                      (u "order") row Hg Hq) as Hs.
    cbn [App.deduct]. rewrite Hn.
    set (db1 := snd (Db.update_stock fadd db (name first) (- quantity first)%Q
                                     (u "order"))) in *.
    unfold Db.update_stock at 1. rewrite Hs. cbn [Db.stock].
    assert (Hneg : Qle_bool 0 (fadd (fadd (Db.stock row) (- quantity first)%Q)
                                    (- quantity second)%Q)
                   = false).
    { destruct (Qle_bool 0 (fadd (fadd (Db.stock row) (- quantity first)%Q)
                                 (- quantity second)%Q)) eqn:E; auto.
      apply Qle_bool_iff in E. exfalso. apply (Qle_not_lt _ _ E).
      apply Hlt. apply (Qplus_lt_l _ _ (quantity second)). ring_simplify.
      exact H3. }
    rewrite Hneg. cbn [negb snd]. exact Hs.
Qed.

Lemma ordered_twice_beyond_stock_witness :
  App.success (fst (sample_webhook (u "30 kg atta, 30 kg atta") sample_db)) = true
  /\ Db.get_item_by_name
       (snd (sample_webhook (u "30 kg atta, 30 kg atta") sample_db)) (u "atta")
     = Some (Db.mkRow 1 (u "atta") (u "Aashirvaad") (u "kg") (50 + - 30)%Q 45 5
                      (Some (u "groceries")))
  /\ App.check_stock sample_db
                     [mkItem (u "atta") 30 (u "kg") (u "30 kg atta");
                      mkItem (u "atta") 30 (u "kg") (u "30 kg atta")]
     = ([mkItem (u "atta") 30 (u "kg") (u "30 kg atta");
         mkItem (u "atta") 30 (u "kg") (u "30 kg atta")], []).
Proof.
  split; [vm_compute; reflexivity|]. split; [vm_compute; reflexivity|].
  refine (proj1 (ordered_twice_beyond_stock
                   Qplus sample_db
                   (mkItem (u "atta") 30 (u "kg") (u "30 kg atta"))
                   (mkItem (u "atta") 30 (u "kg") (u "30 kg atta"))
                   (Db.mkRow 1 (u "atta") (u "Aashirvaad") (u "kg") 50 45 5
                             (Some (u "groceries")))
                   (fun _ _ H => H) (fun _ _ H => H) _ _ _ _ _));
    vm_compute; try reflexivity; discriminate.
Defined.
